(** * keepstack: [scripts/print_dev_summary.py]

    A shallow embedding of the dev-summary script: the indentation-driven
    parser [parse_yaml] and the reporter [main], followed by the properties
    of the specification, each settled against the embedding.

    Conventions of the embedding.
    - A Python [str] is a [string]; a character is a code point below 256
      (Latin-1), which is what [ascii] holds.
    - Python dictionaries are mutable objects that the parser aliases (the
      frame stack holds references to mappings that are also stored in
      their parents).  They live in a store ([heap]) and are named by
      locations; [parent[key] = v] is an update of the store.
    - The frame stack is kept top-first: Python's [stack[-1]] is the head of
      the list, [stack.append] is a cons and [stack.pop] drops the head.
    - A raised exception is an explicit [Raise].  [main] runs in a small
      monad that carries the lines printed so far, so that the lines printed
      before an exception are kept.
    - The depth of nested calls that the interpreter allows where [main]
      formats a value is a parameter [limit] of the model: Python raises
      [RecursionError] when the [repr] of a value nests deeper. *)

From Stdlib Require Import ZArith Lia Ascii String Sorted.
From stdpp Require Import base list strings option.

Set Warnings "-register-all".

Open Scope string_scope.
Open Scope list_scope.
Open Scope Z_scope.

(** ** Python string primitives *)

Module PyStr.

Definition code (c : ascii) : N := N_of_ascii c.

(** [str.isspace] on one character, for code points below 256:
    TAB, LF, VT, FF, CR, FS, GS, RS, US, SPACE, NEL and NBSP. *)
Definition is_space (c : ascii) : bool :=
  let n := code c in
  ((9 <=? n) && (n <=? 13) || (28 <=? n) && (n <=? 32)
   || (n =? 133) || (n =? 160))%N.

(** [s.lstrip()] *)
Fixpoint lstrip (s : string) : string :=
  match s with
  | "" => ""
  | String c s' => if is_space c then lstrip s' else s
  end.

(** [s.rstrip()] *)
Fixpoint rstrip (s : string) : string :=
  match s with
  | "" => ""
  | String c s' =>
      match rstrip s' with
      | "" => if is_space c then "" else String c ""
      | r => String c r
      end
  end.

(** [s.strip()] *)
Definition strip (s : string) : string := rstrip (lstrip s).

(** [c in chars] *)
Fixpoint contains (c : ascii) (chars : string) : bool :=
  match chars with
  | "" => false
  | String c' chars' => Ascii.eqb c' c || contains c chars'
  end.

(** [s.lstrip(chars)] *)
Fixpoint lstrip_chars (chars s : string) : string :=
  match s with
  | "" => ""
  | String c s' => if contains c chars then lstrip_chars chars s' else s
  end.

(** [len(s)] *)
Definition len (s : string) : Z := Z.of_nat (String.length s).

(** [s.startswith(p)] *)
Definition startswith (p s : string) : bool := String.prefix p s.

(** [s.endswith(p)] *)
Definition endswith (p s : string) : bool :=
  let n := String.length s in
  let m := String.length p in
  (m <=? n)%nat && String.eqb (String.substring (n - m) m s) p.

(** [s[n:]] for [0 <= n] *)
Fixpoint skip (n : nat) (s : string) : string :=
  match n, s with
  | O, _ => s
  | S _, "" => ""
  | S n', String _ s' => skip n' s'
  end.

(** [s.partition(sep)] for a non-empty [sep]: split at the first
    occurrence of [sep]; [(s, "", "")] when there is none. *)
Fixpoint partition (sep s : string) : string * string * string :=
  if String.prefix sep s then ("", sep, skip (String.length sep) s)
  else
    match s with
    | "" => ("", "", "")
    | String c s' =>
        let '(before, found, after) := partition sep s' in
        (String c before, found, after)
    end.

(** A slice bound [i] of a string of length [n], clamped as Python does. *)
Definition clamp (n i : Z) : Z :=
  if i <? 0 then Z.max 0 (n + i) else Z.min i n.

(** [s[start:stop]] *)
Definition slice (s : string) (start stop : Z) : string :=
  let a := clamp (len s) start in
  let b := clamp (len s) stop in
  String.substring (Z.to_nat a) (Z.to_nat (b - a)) s.

(** The line boundaries of [str.splitlines] below code point 256:
    LF, VT, FF, CR, FS, GS, RS and NEL. *)
Definition is_linebreak (c : ascii) : bool :=
  let n := code c in
  ((10 <=? n) && (n <=? 13) || (28 <=? n) && (n <=? 30) || (n =? 133))%N.

Definition CR : ascii := ascii_of_N 13.
Definition LF : ascii := ascii_of_N 10.

(** [s.splitlines()]: CR LF is one boundary, and a boundary that ends the
    text opens no further line. *)
Fixpoint splitlines (s : string) : list string :=
  match s with
  | "" => []
  | String c s' =>
      if is_linebreak c then
        "" :: (if Ascii.eqb c CR
               then match s' with
                    | String c' s'' =>
                        if Ascii.eqb c' LF then splitlines s''
                        else splitlines s'
                    | "" => splitlines s'
                    end
               else splitlines s')
      else
        match splitlines s' with
        | [] => [String c ""]
        | l :: ls => String c l :: ls
        end
  end.

(** [sep.join(parts)] *)
Fixpoint join (sep : string) (parts : list string) : string :=
  match parts with
  | [] => ""
  | [p] => p
  | p :: ps => p +:+ sep +:+ join sep ps
  end.

(** [str.isprintable] on one character below 256: not a control
    character, not NBSP and not the soft hyphen. *)
Definition is_printable (c : ascii) : bool :=
  let n := code c in
  ((32 <=? n) && (n <=? 126) || (161 <=? n) && negb (n =? 173))%N.

Definition hex_digit (n : N) : ascii :=
  if (n <? 10)%N then ascii_of_N (48 + n) else ascii_of_N (87 + n).

(** The single quote, the double quote and the backslash. *)
Definition quote1 : ascii := ascii_of_N 39.
Definition quote2 : ascii := ascii_of_N 34.
Definition backslash : ascii := ascii_of_N 92.

(** One character of [repr(s)], inside the quotes [q]. *)
Definition repr_char (q c : ascii) : string :=
  if Ascii.eqb c q || Ascii.eqb c backslash then String backslash (String c "")
  else if (code c =? 9)%N then String backslash "t"
  else if (code c =? 10)%N then String backslash "n"
  else if (code c =? 13)%N then String backslash "r"
  else if is_printable c then String c ""
  else String backslash
         (String "x" (String (hex_digit (code c / 16))
                        (String (hex_digit (code c mod 16)) ""))).

Fixpoint repr_chars (q : ascii) (s : string) : string :=
  match s with
  | "" => ""
  | String c s' => repr_char q c +:+ repr_chars q s'
  end.

(** [repr(s)]: single quotes, unless [s] has a single quote and no double
    quote. *)
Definition repr (s : string) : string :=
  let q := if contains quote1 s && negb (contains quote2 s)
           then quote2 else quote1 in
  String q (repr_chars q s +:+ String q "").

End PyStr.

Import PyStr.

(** ** Exceptions *)

(** The exceptions the script can meet.  [StoreFault] is not a Python
    exception: it marks a reference of the model that names no object of the
    store, which Python's object graph cannot contain. *)
Inductive exn :=
  | IndexError
  | AttributeError
  | RecursionError
  | OSError
  | StoreFault.

Inductive outcome (A : Type) :=
  | Ok (a : A)
  | Raise (e : exn).
Arguments Ok {A} a.
Arguments Raise {A} e.

#[global] Instance outcome_ret : MRet outcome := @Ok.
#[global] Instance outcome_bind : MBind outcome :=
  λ A B f m, match m with Ok a => f a | Raise e => Raise e end.

(** [for x in l: st = body(st, x)], stopping at the first exception. *)
Fixpoint for_each {S A : Type} (body : S → A → outcome S) (st : S)
    (l : list A) : outcome S :=
  match l with
  | [] => Ok st
  | x :: l' => st' ← body st x; for_each body st' l'
  end.

(** ** Data model *)

(** [YamlValue] as an immutable value: what [main] reads. *)
Inductive tree :=
  | TStr (s : string)
  | TDict (entries : list (string * tree))
  | TList (items : list tree).

(** Locations of the mapping objects in the store. *)
Abbreviation loc := nat.

(** What a mapping object holds under a key while the parser runs: a
    string, a list object (the parser only ever makes empty ones and never
    touches them again), or a reference to a mapping object. *)
Inductive value :=
  | VStr (s : string)
  | VList
  | VDict (l : loc).

(** A mapping object: its entries in insertion order. *)
Abbreviation dict := (list (string * value)).

(** [d[key] = v]: an existing key keeps its place, a new key goes last. *)
Fixpoint dict_set (d : dict) (key : string) (v : value) : dict :=
  match d with
  | [] => [(key, v)]
  | (k, w) :: d' =>
      if String.eqb k key then (k, v) :: d'
      else (k, w) :: dict_set d' key v
  end.

(** [d.get(key)] *)
Fixpoint dict_get {V : Type} (d : list (string * V)) (key : string) : option V :=
  match d with
  | [] => None
  | (k, w) :: d' => if String.eqb k key then Some w else dict_get d' key
  end.

(** The store: the mapping objects made so far, by location. *)
Abbreviation heap := (list dict).

(** A parse frame [(indent, mapping)]. *)
Definition frame : Type := Z * loc.

Record state := State { st_heap : heap; st_stack : list frame }.

(** [{}]: a fresh mapping object. *)
Definition alloc (h : heap) : heap * loc := (h ++ [[]], length h).

(** [parent[key] = v] on the object at [parent]. *)
Definition store_set (h : heap) (parent : loc) (key : string) (v : value)
    : outcome heap :=
  match h !! parent with
  | Some d => Ok (<[parent := dict_set d key v]> h)
  | None => Raise StoreFault
  end.

(** ** [parse_yaml] *)

(** [root = {}; stack = [(-1, root)]] *)
Definition root : loc := 0%nat.
Definition init : state := State [[]] [(-1, root)].

(** [while stack and indent <= stack[-1][0]: stack.pop()] *)
Fixpoint pop_frames (indent : Z) (stack : list frame) : list frame :=
  match stack with
  | [] => []
  | (depth, _) :: rest =>
      if indent <=? depth then pop_frames indent rest else stack
  end.

(** [stripped = raw_line.strip()] *)
Definition line_stripped (raw_line : string) : string := strip raw_line.

(** [not stripped or stripped.startswith("#")]: the line is passed over. *)
Definition skipped (raw_line : string) : bool :=
  let stripped := line_stripped raw_line in
  String.eqb stripped "" || startswith "#" stripped.

(** [indent = len(raw_line) - len(raw_line.lstrip(" "))] *)
Definition line_indent (raw_line : string) : Z :=
  len raw_line - len (lstrip_chars " " raw_line).

(** [key, _, value = stripped.partition(":")] *)
Definition line_key (raw_line : string) : string :=
  let '(key, _, _) := partition ":" (line_stripped raw_line) in key.

(** [value = value.strip()], after the partition. *)
Definition line_value (raw_line : string) : string :=
  let '(_, _, value) := partition ":" (line_stripped raw_line) in strip value.

(** The scalar branch: one quote stripped from each end when [value] starts
    and ends with the same kind of quote. *)
Definition unquote (value : string) : string :=
  if (startswith (String quote2 "") value && endswith (String quote2 "") value)
     || (startswith "'" value && endswith "'" value)
  then slice value 1 (-1)
  else value.

(** One turn of the loop body on [raw_line]. *)
Definition parse_line (st : state) (raw_line : string) : outcome state :=
  if skipped raw_line then Ok st
  else
    let indent := line_indent raw_line in
    let key := line_key raw_line in
    let value := line_value raw_line in
    let stack := pop_frames indent (st_stack st) in
    match stack with
    | [] => Raise IndexError
    | (_, parent) :: _ =>
        if String.eqb value "" then
          let '(h, node) := alloc (st_heap st) in
          h' ← store_set h parent key (VDict node);
          Ok (State h' ((indent, node) :: stack))
        else if String.eqb value "[]" || String.eqb value "{}" then
          if String.eqb value "[]" then
            h' ← store_set (st_heap st) parent key VList;
            Ok (State h' stack)
          else
            let '(h, node) := alloc (st_heap st) in
            h' ← store_set h parent key (VDict node);
            Ok (State h' stack)
        else
          h' ← store_set (st_heap st) parent key (VStr (unquote value));
          Ok (State h' stack)
    end.

(** The loop of [parse_yaml]: the state after the lines read so far. *)
Definition parse_lines (lines : list string) : outcome state :=
  for_each parse_line init lines.

(** The object graph below [v], read off as a [tree]; [fuel] bounds the
    depth of the walk. *)
Fixpoint reify (fuel : nat) (h : heap) (v : value) : option tree :=
  match v with
  | VStr s => Some (TStr s)
  | VList => Some (TList [])
  | VDict l =>
      match fuel with
      | O => None
      | S fuel' =>
          d ← h !! l;
          entries ← mapM (λ kv : string * value,
                            t ← reify fuel' h kv.2; Some (kv.1, t)) d;
          Some (TDict entries)
      end
  end.

(** [return root]: the mapping at [root] with everything below it. *)
Definition read_root (h : heap) : outcome (list (string * tree)) :=
  match reify (length h) h (VDict root) with
  | Some (TDict entries) => Ok entries
  | _ => Raise StoreFault
  end.

Definition parse_yaml (lines : list string) : outcome (list (string * tree)) :=
  st ← parse_lines lines;
  read_root (st_heap st).

(** ** [main] *)

(** What a variable of [main] holds: [None] or a [YamlValue]. *)
Definition pyval : Type := option tree.

(** [isinstance(x, dict)] *)
Definition isinstance_dict (x : pyval) : bool :=
  match x with
  | Some (TDict _) => true
  | _ => false
  end.

(** [x.get(key, default)]: only a mapping has the attribute [get]. *)
Definition py_get (x : pyval) (key : string) (default : pyval) : outcome pyval :=
  match x with
  | Some (TDict d) =>
      Ok (match dict_get d key with
          | Some w => Some w
          | None => default
          end)
  | _ => Raise AttributeError
  end.

(** [bool(x)]: [None] and the empty string, mapping and list are false. *)
Definition truthy (x : pyval) : bool :=
  match x with
  | None => false
  | Some (TStr s) => negb (String.eqb s "")
  | Some (TDict d) => match d with [] => false | _ => true end
  | Some (TList l) => match l with [] => false | _ => true end
  end.

(** [a and b] *)
Definition py_and (a b : pyval) : pyval := if truthy a then b else a.

(** [repr(t)] with [limit] nested calls left: every call of [repr], on a
    key or a string as on a mapping, is one level, and Python raises
    [RecursionError] where none is left.  Keys and values are shown from
    left to right. *)
Fixpoint repr_tree (limit : nat) (t : tree) : outcome string :=
  match limit with
  | O => Raise RecursionError
  | S limit' =>
      match t with
      | TStr s => Ok (repr s)
      | TDict d =>
          parts ← mapM (λ kv : string * tree,
                          k ← repr_tree limit' (TStr kv.1);
                          v ← repr_tree limit' kv.2;
                          Ok (k +:+ ": " +:+ v)) d;
          Ok ("{" +:+ join ", " parts +:+ "}")
      | TList l =>
          parts ← mapM (repr_tree limit') l;
          Ok ("[" +:+ join ", " parts +:+ "]")
      end
  end.

(** What an f-string shows for [x]: a string as it is, anything else by
    its [repr]. *)
Definition py_str (limit : nat) (x : pyval) : outcome string :=
  match x with
  | None => Ok "None"
  | Some (TStr s) => Ok s
  | Some t => repr_tree limit t
  end.

(** A step of [main]: from the lines printed so far to the lines printed
    after it and its result or exception. *)
Record run (A : Type) := Run { exec : list string → list string * outcome A }.
Arguments Run {A} exec.
Arguments exec {A} r out.

#[global] Instance run_ret : MRet run := λ A a, Run (λ out, (out, Ok a)).
#[global] Instance run_bind : MBind run :=
  λ A B f m,
    Run (λ out, match exec m out with
                | (out', Ok a) => exec (f a) out'
                | (out', Raise e) => (out', Raise e)
                end).

(** A step that prints nothing. *)
Definition lift {A : Type} (o : outcome A) : run A := Run (λ out, (out, o)).

(** [print(line)] *)
Definition print (line : string) : run unit :=
  Run (λ out, (out ++ [line], Ok tt)).

(** The body of [main] after the parse. *)
Definition report (limit : nat) (config : list (string * tree)) : run unit :=
  let config : pyval := Some (TDict config) in
  let empty : pyval := Some (TDict []) in
  ingress ← lift (py_get config "ingress" empty);
  host ← lift (if isinstance_dict ingress then py_get ingress "host" None
               else Ok None);
  secrets_root ← lift (py_get config "secrets" empty);
  secrets ← lift (if isinstance_dict secrets_root then
                    secrets_data ← py_get secrets_root "data" empty;
                    Ok (if isinstance_dict secrets_data then secrets_data
                        else empty)
                  else Ok empty);
  postgres ← lift (py_get config "postgres" empty);
  observability ← lift (py_get config "observability" empty);
  grafana ← lift (if isinstance_dict observability then
                    grafana_value ← py_get observability "grafana" empty;
                    Ok (if isinstance_dict grafana_value then grafana_value
                        else empty)
                  else Ok empty);
  (if truthy host then
     text ← lift (py_str limit host);
     print ("Ingress URL: http://" +:+ text +:+ ":8080")
   else mret tt);;
  (if isinstance_dict postgres then
     username ← lift (py_get postgres "username" None);
     password ← lift (py_get postgres "password" None);
     if truthy (py_and username password) then
       user ← lift (py_str limit username);
       pass ← lift (py_str limit password);
       print ("Postgres credentials: " +:+ user +:+ "/" +:+ pass)
     else mret tt
   else mret tt);;
  smtp_url ← lift (if isinstance_dict secrets then py_get secrets "SMTP_URL" None
                   else Ok None);
  (if truthy smtp_url then
     text ← lift (py_str limit smtp_url);
     print ("SMTP URL: " +:+ text)
   else mret tt);;
  jwt_secret ← lift (if isinstance_dict secrets
                     then py_get secrets "JWT_SECRET" None
                     else Ok None);
  (if truthy jwt_secret then
     text ← lift (py_str limit jwt_secret);
     print ("JWT secret: " +:+ text)
   else mret tt);;
  grafana_user ← lift (if isinstance_dict grafana
                       then py_get grafana "adminUser" None
                       else Ok None);
  grafana_pass ← lift (if isinstance_dict grafana
                       then py_get grafana "adminPassword" None
                       else Ok None);
  if truthy (py_and grafana_user grafana_pass) then
    user ← lift (py_str limit grafana_user);
    pass ← lift (py_str limit grafana_pass);
    print ("Grafana credentials: " +:+ user +:+ "/" +:+ pass)
  else mret tt.

(** What [config_path.read_text()] does: the file is not there
    ([FileNotFoundError]), the read fails otherwise, or it gives the text. *)
Inductive read_result :=
  | Missing
  | Unreadable
  | Text (text : string).

(** [main], from the result of the read: [exec (main limit file) []] is the
    lines printed and how [main] ends. *)
Definition main (limit : nat) (file : read_result) : run unit :=
  match file with
  | Missing => mret tt
  | Unreadable => lift (Raise OSError)
  | Text text =>
      let lines := splitlines text in
      config ← lift (parse_yaml lines);
      report limit config
  end.

(** * Vocabulary of the statements *)

(** The last character of a string, if it has one. *)
Fixpoint last_char (s : string) : option ascii :=
  match s with
  | "" => None
  | String c "" => Some c
  | String _ s' => last_char s'
  end.

(** [s] is white space only. *)
Fixpoint all_space (s : string) : bool :=
  match s with
  | "" => true
  | String c s' => is_space c && all_space s'
  end.

(** [value] is [inner] between two quotes [q]. *)
Definition wrapped (q : ascii) (inner value : string) : Prop :=
  value = String q (inner +:+ String q "").

(** [upper] lies above [lower] in a well-formed stack: it is deeper. *)
Definition above (upper lower : frame) : Prop := lower.1 < upper.1.

(** Depths strictly increase from the bottom of the stack to its top (the
    list is top-first, so every frame is deeper than all that follow). *)
Definition increasing (stack : list frame) : Prop := StronglySorted above stack.

(** A reference stored in the mapping at [p] names a mapping made after
    it, below the end [n] of the store. *)
Definition ref_ok (p : loc) (n : nat) (kv : string * value) : Prop :=
  match kv.2 with
  | VDict l => (p < l < n)%nat
  | _ => True
  end.

(** Every reference of the store points forward, to a mapping that is
    there. *)
Definition refs_ok (h : heap) : Prop :=
  ∀ p d, h !! p = Some d → Forall (ref_ok p (length h)) d.

(** The invariant of the loop of [parse_yaml]: the stack is strictly
    increasing in depth, its bottom frame is the root frame, its frames name
    mappings of the store, the references of the store are in order, and no
    mapping holds a key twice. *)
Record wf (st : state) : Prop := Wf {
  wf_increasing : increasing (st_stack st);
  wf_bottom : list.last (st_stack st) = Some (-1, root);
  wf_frames : Forall (λ f : frame, (f.2 < length (st_heap st))%nat) (st_stack st);
  wf_refs : refs_ok (st_heap st);
  wf_keys : Forall (λ d : dict, NoDup d.*1) (st_heap st)
}.

(** What a retained line writes under its key: a fresh mapping for a blank
    value and for the empty-mapping token, a list for the empty-list token,
    the unquoted text otherwise. *)
Definition written (st : state) (raw_line : string) : value :=
  let value := line_value raw_line in
  if String.eqb value "" then VDict (length (st_heap st))
  else if String.eqb value "[]" then VList
  else if String.eqb value "{}" then VDict (length (st_heap st))
  else VStr (unquote value).

(** The line makes a mapping object. *)
Definition allocates (raw_line : string) : bool :=
  String.eqb (line_value raw_line) "" || String.eqb (line_value raw_line) "{}".

(** The line opens a nesting level. *)
Definition pushes (raw_line : string) : bool :=
  String.eqb (line_value raw_line) "".

(** The mapping and key a line writes to, if it is retained. *)
Definition line_target (st : state) (raw_line : string) : option (loc * string) :=
  if skipped raw_line then None
  else match pop_frames (line_indent raw_line) (st_stack st) with
       | (_, parent) :: _ => Some (parent, line_key raw_line)
       | [] => None
       end.

(** [h[p].get(key)] *)
Definition lookup_key (h : heap) (p : loc) (key : string) : option value :=
  d ← h !! p; dict_get d key.

(** After the lines [pre], the retained line [raw_line] stores [v] under
    its key in the mapping on top of the stack once the frames at or below
    its indentation are popped. *)
Definition inserts (pre : list string) (raw_line : string) (v : value) : Prop :=
  ∃ st st' parent,
    parse_lines pre = Ok st
    ∧ line_target st raw_line = Some (parent, line_key raw_line)
    ∧ parse_lines (pre ++ [raw_line]) = Ok st'
    ∧ lookup_key (st_heap st') parent (line_key raw_line) = Some v.

(** No line of [post], read from the state [st] on, writes [key] of the
    mapping at [p]. *)
Fixpoint untouched (p : loc) (key : string) (st : state) (post : list string)
    : Prop :=
  match post with
  | [] => True
  | raw_line :: post' =>
      line_target st raw_line ≠ Some (p, key)
      ∧ ∀ st', parse_line st raw_line = Ok st' → untouched p key st' post'
  end.

(** The mapping reached from the mapping at [l] along a path of keys, each
    bound to a mapping. *)
Fixpoint heap_at (h : heap) (l : loc) (path : list string) : option loc :=
  match path with
  | [] => Some l
  | key :: path' =>
      match lookup_key h l key with
      | Some (VDict l') => heap_at h l' path'
      | _ => None
      end
  end.

(** The field [key] of [x]: nothing when [x] is not a mapping or has no
    such key. *)
Definition get_field (x : pyval) (key : string) : pyval :=
  match x with
  | Some (TDict d) => dict_get d key
  | _ => None
  end.

(** The value at a path of keys below the root mapping: nothing as soon as
    a key is missing or a node on the way is not a mapping. *)
Definition at_path (config : list (string * tree)) (path : list string) : pyval :=
  foldl get_field (Some (TDict config)) path.

(** The text of [repr(t)] when the interpreter has levels enough. *)
Fixpoint repr_text (t : tree) : string :=
  match t with
  | TStr s => repr s
  | TDict d =>
      "{" +:+ join ", " (map (λ kv : string * tree,
                                repr kv.1 +:+ ": " +:+ repr_text kv.2) d)
          +:+ "}"
  | TList l => "[" +:+ join ", " (map repr_text l) +:+ "]"
  end.

(** The text an f-string shows for [x] when the interpreter has levels
    enough. *)
Definition py_text (x : pyval) : string :=
  match x with
  | None => "None"
  | Some (TStr s) => s
  | Some t => repr_text t
  end.

(** The levels of nested [repr] calls that [t] takes: one for a string or
    an empty container, one more than its deepest item for a container. *)
Fixpoint depth (t : tree) : nat :=
  match t with
  | TStr _ => 1
  | TDict d => S (foldr (λ (kv : string * tree) acc, Nat.max (depth kv.2) acc) 0%nat d)
  | TList l => S (foldr (λ (x : tree) acc, Nat.max (depth x) acc) 0%nat l)
  end.

(** [x] can be formatted with [limit] levels: it is [None] or a string, or
    its [repr] nests no deeper than [limit]. *)
Definition fits (limit : nat) (x : pyval) : bool :=
  match x with
  | None => true
  | Some (TStr _) => true
  | Some t => (depth t <=? limit)%nat
  end.

(** The line, if the condition holds. *)
Definition line_if (b : bool) (line : string) : list string :=
  if b then [line] else [].

(** The lines of the report when every field can be formatted, by the table
    of the specification: one line per row, in the order of the rows, each
    present when its fields are true values. *)
Definition report_lines (config : list (string * tree)) : list string :=
  let host := at_path config ["ingress"; "host"] in
  let username := at_path config ["postgres"; "username"] in
  let password := at_path config ["postgres"; "password"] in
  let smtp_url := at_path config ["secrets"; "data"; "SMTP_URL"] in
  let jwt_secret := at_path config ["secrets"; "data"; "JWT_SECRET"] in
  let grafana_user := at_path config ["observability"; "grafana"; "adminUser"] in
  let grafana_pass :=
    at_path config ["observability"; "grafana"; "adminPassword"] in
  line_if (truthy host) ("Ingress URL: http://" +:+ py_text host +:+ ":8080")
  ++ line_if (truthy username && truthy password)
       ("Postgres credentials: " +:+ py_text username +:+ "/" +:+ py_text password)
  ++ line_if (truthy smtp_url) ("SMTP URL: " +:+ py_text smtp_url)
  ++ line_if (truthy jwt_secret) ("JWT secret: " +:+ py_text jwt_secret)
  ++ line_if (truthy grafana_user && truthy grafana_pass)
       ("Grafana credentials: " +:+ py_text grafana_user
        +:+ "/" +:+ py_text grafana_pass).

(** A row of the report: whether its fields are true values, and the line
    that formatting gives, or the exception it raises. *)
Definition row : Type := bool * outcome string.

(** The rows of the report, by the table of the specification. *)
Definition report_rows (limit : nat) (config : list (string * tree)) : list row :=
  let host := at_path config ["ingress"; "host"] in
  let username := at_path config ["postgres"; "username"] in
  let password := at_path config ["postgres"; "password"] in
  let smtp_url := at_path config ["secrets"; "data"; "SMTP_URL"] in
  let jwt_secret := at_path config ["secrets"; "data"; "JWT_SECRET"] in
  let grafana_user := at_path config ["observability"; "grafana"; "adminUser"] in
  let grafana_pass :=
    at_path config ["observability"; "grafana"; "adminPassword"] in
  [(truthy host,
    text ← py_str limit host; Ok ("Ingress URL: http://" +:+ text +:+ ":8080"));
   (truthy username && truthy password,
    user ← py_str limit username; pass ← py_str limit password;
    Ok ("Postgres credentials: " +:+ user +:+ "/" +:+ pass));
   (truthy smtp_url, text ← py_str limit smtp_url; Ok ("SMTP URL: " +:+ text));
   (truthy jwt_secret,
    text ← py_str limit jwt_secret; Ok ("JWT secret: " +:+ text));
   (truthy grafana_user && truthy grafana_pass,
    user ← py_str limit grafana_user; pass ← py_str limit grafana_pass;
    Ok ("Grafana credentials: " +:+ user +:+ "/" +:+ pass))].

(** The rows printed in order: a row whose fields are not true values is
    passed over, a row that formats is printed, and the first row that
    raises ends the report, after the lines printed before it. *)
Fixpoint emit (rows : list row) (out : list string) : list string * outcome unit :=
  match rows with
  | [] => (out, Ok tt)
  | (false, _) :: rows' => emit rows' out
  | (true, Ok line) :: rows' => emit rows' (out ++ [line])
  | (true, Raise e) :: _ => (out, Raise e)
  end.

(** The paths of the seven fields of the report. *)
Definition leaf_paths : list (list string) :=
  [["ingress"; "host"]; ["postgres"; "username"]; ["postgres"; "password"];
   ["secrets"; "data"; "SMTP_URL"]; ["secrets"; "data"; "JWT_SECRET"];
   ["observability"; "grafana"; "adminUser"];
   ["observability"; "grafana"; "adminPassword"]].

(** The default [{}] of the lookups of [main], and the two ways [main] falls
    back on it: for a missing key, and for a value that is no mapping. *)
Definition empty_dict : pyval := Some (TDict []).

Definition or_empty (x : pyval) : pyval :=
  match x with
  | Some w => Some w
  | None => empty_dict
  end.

Definition narrow (x : pyval) : pyval :=
  if isinstance_dict x then x else empty_dict.

(** The double quote as a string, and [s] between double quotes. *)
Definition dquote : string := String quote2 "".
Definition dquoted (s : string) : string := dquote +:+ s +:+ dquote.

(** [lines] joined by line feeds, as the text of a file. *)
Definition file_text (lines : list string) : string := join (String LF "") lines.

(** [s] holds a line boundary of [splitlines]. *)
Fixpoint has_linebreak (s : string) : bool :=
  match s with
  | "" => false
  | String c s' => is_linebreak c || has_linebreak s'
  end.

(** Consecutive frames are linked in the store: the mapping of each frame is
    stored, under some key, in the mapping of the frame below it. *)
Fixpoint chained (h : heap) (stack : list frame) : Prop :=
  match stack with
  | upper :: rest =>
      match rest with
      | lower :: _ =>
          (∃ key, lookup_key h lower.2 key = Some (VDict upper.2))
          ∧ chained h rest
      | [] => True
      end
  | [] => True
  end.

(** [k] spaces, and a line moved [k] spaces to the right. *)
Fixpoint spaces (k : nat) : string :=
  match k with
  | O => ""
  | S k' => String " " (spaces k')
  end.

Definition indented (k : nat) (raw_line : string) : string :=
  spaces k +:+ raw_line.

(** A frame of a stack whose lines are moved [k] spaces to the right: the
    root frame, of negative depth, stays; the others are [k] deeper. *)
Definition shift (k : nat) (f : frame) : frame :=
  (if f.1 <? 0 then f.1 else f.1 + Z.of_nat k, f.2).

(** [st2] is [st] with the frames moved. *)
Definition shifted (k : nat) (st st2 : state) : Prop :=
  st_heap st2 = st_heap st ∧ st_stack st2 = map (shift k) (st_stack st).

(** Every list in [t] is empty. *)
Fixpoint lists_empty (t : tree) : bool :=
  match t with
  | TStr _ => true
  | TDict d => forallb (λ kv : string * tree, lists_empty kv.2) d
  | TList l => match l with [] => true | _ => false end
  end.

(** The five lines of the report with the texts [b1] to [b5] in the places
    of their fields. *)
Definition report_table (b1 b2 b3 b4 b5 : string) : list string :=
  ["Ingress URL: http://" +:+ b1 +:+ ":8080";
   "Postgres credentials: " +:+ b2;
   "SMTP URL: " +:+ b3;
   "JWT secret: " +:+ b4;
   "Grafana credentials: " +:+ b5].

(** * Properties *)

(** ** Strings *)

Section StringFacts.

Lemma append_nil (s : string) : "" +:+ s = s.
Proof. reflexivity. Qed.

Lemma append_cons (c : ascii) (a b : string) :
  String c a +:+ b = String c (a +:+ b).
Proof. reflexivity. Qed.

Lemma length_lstrip_chars (chars s : string) :
  (String.length (lstrip_chars chars s) <= String.length s)%nat.
Proof.
  induction s as [|c s IH]; simpl; [lia|].
  destruct (contains c chars); simpl; lia.
Qed.

Lemma line_indent_nonneg (raw_line : string) : 0 <= line_indent raw_line.
Proof.
  unfold line_indent, len.
  pose proof (length_lstrip_chars " " raw_line). lia.
Qed.

Lemma prefix_char (c c' : ascii) (s : string) :
  String.prefix (String c "") (String c' s) = Ascii.eqb c c'.
Proof.
  simpl. destruct (Ascii.ascii_dec c c') as [->|Hne].
  - destruct s; symmetry; apply Ascii.eqb_refl.
  - symmetry. by apply Ascii.eqb_neq.
Qed.

(** The split is at the first separator: nothing before it is one. *)
Lemma partition_first (c : ascii) (before after : string) :
  contains c before = false →
  partition (String c "") (before +:+ String c after)
  = (before, String c "", after).
Proof.
  induction before as [|b before IH]; intros Hc.
  - rewrite append_nil. cbn [partition].
    rewrite prefix_char, Ascii.eqb_refl. reflexivity.
  - cbn [contains] in Hc. apply orb_false_elim in Hc as [Hb Hc].
    rewrite append_cons. cbn [partition]. rewrite prefix_char.
    rewrite Ascii.eqb_sym, Hb. by rewrite (IH Hc).
Qed.

Lemma partition_absent (c : ascii) (s : string) :
  contains c s = false → partition (String c "") s = (s, "", "").
Proof.
  induction s as [|b s IH]; intros Hc; [reflexivity|].
  cbn [contains] in Hc. apply orb_false_elim in Hc as [Hb Hc].
  cbn [partition]. rewrite prefix_char, Ascii.eqb_sym, Hb.
  by rewrite (IH Hc).
Qed.

Lemma substring_all_prefix (a b : string) :
  String.substring 0 (String.length a) (a +:+ b) = a.
Proof.
  induction a as [|c a IH].
  - rewrite append_nil. by destruct b.
  - rewrite append_cons. simpl. by rewrite IH.
Qed.

Lemma length_append (a b : string) :
  String.length (a +:+ b) = (String.length a + String.length b)%nat.
Proof.
  induction a as [|c a IH]; [done|].
  rewrite append_cons. simpl. by rewrite IH.
Qed.

Lemma last_char_append (a : string) (c : ascii) :
  last_char (a +:+ String c "") = Some c.
Proof.
  induction a as [|b a IH]; [done|].
  rewrite append_cons. cbn [last_char]. rewrite IH.
  by destruct a.
Qed.

Lemma last_char_split (s : string) (c : ascii) :
  last_char s = Some c → ∃ a, s = a +:+ String c "".
Proof.
  induction s as [|b s IH]; [done|].
  destruct s as [|b' s].
  - intros [= ->]. by exists "".
  - intros H. destruct (IH H) as [a Ha]. exists (String b a).
    rewrite append_cons. by rewrite <- Ha.
Qed.

Lemma endswith_char (c : ascii) (s : string) :
  endswith (String c "") s = true ↔ last_char s = Some c.
Proof.
  unfold endswith. cbn [String.length].
  induction s as [|b s IH].
  - cbn. split; discriminate.
  - destruct s as [|b' s].
    + cbn. rewrite Ascii.eqb_sym.
      destruct (Ascii.eqb c b) eqn:E; cbn.
      * apply Ascii.eqb_eq in E as ->. done.
      * apply Ascii.eqb_neq in E. split; [done|]. intros [= ->]. done.
    + change (last_char (String b (String b' s))) with (last_char (String b' s)).
      rewrite <- IH. cbn [String.length].
      replace (S (S (String.length s)) - 1)%nat with (S (String.length s)) by lia.
      replace (S (String.length s) - 1)%nat with (String.length s) by lia.
      reflexivity.
Qed.

Lemma startswith_char (c : ascii) (s : string) :
  startswith (String c "") s = true ↔ ∃ s', s = String c s'.
Proof.
  unfold startswith. destruct s as [|b s].
  - cbn. split; [done|]. by intros [? ?].
  - rewrite prefix_char. rewrite Ascii.eqb_eq. split.
    + intros ->. by eexists.
    + by intros [? [= -> ?]].
Qed.

Lemma slice_inner (q1 q2 : ascii) (inner : string) :
  slice (String q1 (inner +:+ String q2 "")) 1 (-1) = inner.
Proof.
  unfold slice, clamp, len. cbn [String.length].
  rewrite length_append. cbn [String.length].
  set (n := String.length inner).
  replace (1 <? 0) with false by done. replace (-1 <? 0) with true by done.
  replace (Z.to_nat (Z.min 1 (Z.of_nat (S (n + 1))))) with 1%nat by lia.
  replace (Z.to_nat (Z.max 0 (Z.of_nat (S (n + 1)) + -1)
                     - Z.min 1 (Z.of_nat (S (n + 1))))) with n by lia.
  cbn [String.substring]. apply substring_all_prefix.
Qed.

Lemma slice_single (q : ascii) : slice (String q "") 1 (-1) = "".
Proof. reflexivity. Qed.

(** [lstrip] removes a prefix of white space, and what is left does not
    start with white space. *)
Lemma lstrip_split (s : string) :
  ∃ pre, s = pre +:+ lstrip s ∧ all_space pre = true.
Proof.
  induction s as [|c s (pre & Hs & Hpre)]; [by exists ""|].
  cbn [lstrip]. destruct (is_space c) eqn:Hc.
  - exists (String c pre). rewrite append_cons, <- Hs. cbn. by rewrite Hc.
  - by exists "".
Qed.

Lemma lstrip_head (s : string) (c : ascii) (s' : string) :
  lstrip s = String c s' → is_space c = false.
Proof.
  induction s as [|b s IH]; [done|].
  cbn [lstrip]. destruct (is_space b) eqn:Hb; [done|]. by intros [= <- _].
Qed.

(** [rstrip] removes a suffix of white space, and what is left does not end
    with white space. *)
Lemma rstrip_split (s : string) :
  ∃ post, s = rstrip s +:+ post ∧ all_space post = true.
Proof.
  induction s as [|c s (post & Hs & Hpost)]; [by exists ""|].
  cbn [rstrip]. destruct (rstrip s) as [|a r] eqn:Hr.
  - rewrite append_nil in Hs. subst post. destruct (is_space c) eqn:Hc.
    + exists (String c s). cbn. by rewrite Hc.
    + by exists s.
  - exists post. by rewrite append_cons, <- Hs.
Qed.

Lemma rstrip_last (s : string) (c : ascii) :
  last_char (rstrip s) = Some c → is_space c = false.
Proof.
  induction s as [|b s IH]; [done|].
  cbn [rstrip]. destruct (rstrip s) as [|a r] eqn:Hr.
  - destruct (is_space b) eqn:Hb; [done|]. by intros [= <-].
  - done.
Qed.

Lemma rstrip_head (c : ascii) (s : string) :
  is_space c = false → ∃ r, rstrip (String c s) = String c r.
Proof.
  intros Hc. cbn [rstrip]. destruct (rstrip s); [|by eexists].
  rewrite Hc. by eexists.
Qed.

(** [strip] removes the white space at both ends and nothing else. *)
Lemma strip_spec (s : string) :
  (∃ pre post, s = pre +:+ strip s +:+ post
               ∧ all_space pre = true ∧ all_space post = true)
  ∧ (∀ c s', strip s = String c s' → is_space c = false)
  ∧ (∀ c, last_char (strip s) = Some c → is_space c = false).
Proof.
  unfold strip. split; [|split].
  - destruct (lstrip_split s) as (pre & Hs & Hpre).
    destruct (rstrip_split (lstrip s)) as (post & Hl & Hpost).
    exists pre, post. by rewrite <- Hl.
  - intros c s' Hstrip. destruct (lstrip s) as [|b l] eqn:Hl; [done|].
    pose proof (lstrip_head _ _ _ Hl) as Hb.
    destruct (rstrip_head b l Hb) as [r Hr].
    rewrite Hr in Hstrip. by injection Hstrip as <- _.
  - apply rstrip_last.
Qed.

Lemma lstrip_all_space (ws : string) : all_space ws = true → lstrip ws = "".
Proof.
  induction ws as [|c ws IH]; [done|]. cbn [all_space lstrip].
  intros H. apply andb_prop in H as [Hc Hws]. rewrite Hc. by apply IH.
Qed.

Lemma rstrip_all_space (ws : string) : all_space ws = true → rstrip ws = "".
Proof.
  induction ws as [|c ws IH]; [done|]. cbn [all_space rstrip].
  intros H. apply andb_prop in H as [Hc Hws]. by rewrite (IH Hws), Hc.
Qed.

Lemma rstrip_append_space (s ws : string) :
  all_space ws = true → rstrip (s +:+ ws) = rstrip s.
Proof.
  intros Hws. induction s as [|c s IH].
  - rewrite append_nil. by apply rstrip_all_space.
  - rewrite append_cons. cbn [rstrip]. by rewrite IH.
Qed.

Lemma strip_append_space (s ws : string) :
  all_space ws = true → strip (s +:+ ws) = strip s.
Proof.
  intros Hws. unfold strip. induction s as [|c s IH].
  - rewrite append_nil, (lstrip_all_space _ Hws). done.
  - rewrite append_cons. cbn [lstrip]. destruct (is_space c); [done|].
    rewrite <- append_cons. by apply rstrip_append_space.
Qed.

Lemma all_space_append (a b : string) :
  all_space (a +:+ b) = all_space a && all_space b.
Proof.
  induction a as [|c a IH]; [done|].
  rewrite append_cons. cbn [all_space]. by rewrite IH, andb_assoc.
Qed.

(** White space in front of a text is what [lstrip] removes. *)
Lemma lstrip_lead (lead s : string) :
  all_space lead = true → lstrip (lead +:+ s) = lstrip s.
Proof.
  induction lead as [|c lead IH]; [done|]. cbn [all_space].
  intros H. apply andb_prop in H as [Hc Hlead].
  rewrite append_cons. cbn [lstrip]. rewrite Hc. by apply IH.
Qed.

(** A text that does not end with white space is left alone by [rstrip]. *)
Lemma rstrip_id (s : string) :
  (∀ c, last_char s = Some c → is_space c = false) → rstrip s = s.
Proof.
  induction s as [|c s IH]; [done|]. intros Hlast.
  cbn [rstrip]. destruct s as [|b s].
  - cbn [rstrip]. by rewrite (Hlast c eq_refl).
  - rewrite IH; [done|]. intros c' Hc'. by apply Hlast.
Qed.

(** [strip] gives the text between the white space: the only text with no
    white space at its ends that the white space around it turns into the
    whole. *)
Lemma strip_unique (lead body trail : string) :
  all_space lead = true → all_space trail = true →
  (∀ c s', body = String c s' → is_space c = false) →
  (∀ c, last_char body = Some c → is_space c = false) →
  strip (lead +:+ body +:+ trail) = body.
Proof.
  intros Hlead Htrail Hfirst Hlast. unfold strip.
  rewrite (lstrip_lead _ _ Hlead). destruct body as [|c body].
  - rewrite append_nil, (lstrip_all_space _ Htrail). done.
  - rewrite append_cons. cbn [lstrip]. rewrite (Hfirst c body eq_refl).
    rewrite <- append_cons, (rstrip_append_space _ _ Htrail).
    by apply rstrip_id.
Qed.

(** The primitives on small inputs, tabs included: a tab is white space
    for [strip] and no space for the indentation. *)
Example string_primitives :
  let tab := String (ascii_of_N 9) "" in
  strip ("  a : b " +:+ tab) = "a : b"
  ∧ line_indent "    x: 1" = 4
  ∧ line_indent (tab +:+ "  x: 1") = 0
  ∧ line_indent (" " +:+ tab +:+ " x: 1") = 1
  ∧ skipped (" " +:+ tab) = true
  ∧ skipped "  # note" = true
  ∧ skipped "x # note" = false
  ∧ partition ":" "a:b:c" = ("a", ":", "b:c")
  ∧ partition ":" "abc" = ("abc", "", "")
  ∧ slice "abcd" 1 (-1) = "bc"
  ∧ slice "ab" 1 (-1) = ""
  ∧ slice "a" 1 (-1) = ""
  ∧ endswith "'" "it's" = false
  ∧ splitlines ("a" +:+ String CR (String LF "b") +:+ String LF "")
    = ["a"; "b"]
  ∧ repr "it's" = String quote2 ("it's" +:+ String quote2 "")
  ∧ repr "plain" = "'plain'".
Proof. by vm_compute. Qed.

End StringFacts.

(** ** Quote stripping *)

Section Unquote.

(** [value] starts and ends with [q]: one [q] alone, or a wrapped string. *)
Lemma starts_ends_with (q : ascii) (value : string) :
  startswith (String q "") value && endswith (String q "") value = true
  ↔ value = String q "" ∨ ∃ inner, wrapped q inner value.
Proof.
  rewrite andb_true_iff, startswith_char, endswith_char. split.
  - intros [[s' ->] Hlast]. destruct s' as [|b s']; [by left|right].
    change (last_char (String q (String b s')))
      with (last_char (String b s')) in Hlast.
    apply last_char_split in Hlast as [inner Hinner].
    exists inner. unfold wrapped. by rewrite Hinner.
  - intros [->|[inner ->]].
    + split; [by eexists|done].
    + split; [by eexists|].
      rewrite <- append_cons. apply last_char_append.
Qed.

Lemma unquote_wrapped (q : ascii) (inner value : string) :
  q = quote1 ∨ q = quote2 → wrapped q inner value → unquote value = inner.
Proof.
  intros Hq Hw. unfold unquote.
  assert (startswith (String q "") value && endswith (String q "") value = true)
    as Hse by (apply starts_ends_with; eauto).
  replace ((startswith (String quote2 "") value
            && endswith (String quote2 "") value)
           || (startswith "'" value && endswith "'" value)) with true.
  - rewrite Hw. apply slice_inner.
  - symmetry. apply orb_true_iff. destruct Hq as [->| ->]; [by right|by left].
Qed.

Lemma unquote_lone (q : ascii) :
  q = quote1 ∨ q = quote2 → unquote (String q "") = "".
Proof. by intros [->| ->]. Qed.

Lemma unquote_plain (value : string) :
  value ≠ String quote1 "" → value ≠ String quote2 "" →
  (∀ q inner, q = quote1 ∨ q = quote2 → ¬ wrapped q inner value) →
  unquote value = value.
Proof.
  intros H1 H2 Hw. unfold unquote.
  destruct (startswith (String quote2 "") value
            && endswith (String quote2 "") value) eqn:E2.
  { apply starts_ends_with in E2 as [?|[inner ?]]; [done|].
    destruct (Hw quote2 inner); auto. }
  destruct (startswith "'" value && endswith "'" value) eqn:E1; [|done].
  apply (starts_ends_with quote1) in E1 as [?|[inner ?]]; [done|].
  destruct (Hw quote1 inner); auto.
Qed.

End Unquote.

(** ** The frame stack *)

Section Frames.

Lemma pop_frames_split (indent : Z) (stack : list frame) :
  ∃ popped, stack = popped ++ pop_frames indent stack
            ∧ Forall (λ f, indent <= f.1) popped.
Proof.
  induction stack as [|[depth l] stack [popped [Heq Hall]]].
  - by exists [].
  - cbn [pop_frames]. destruct (indent <=? depth) eqn:E.
    + exists ((depth, l) :: popped). split; [by rewrite Heq at 1|].
      constructor; [cbn; lia|done].
    + by exists [].
Qed.

Lemma pop_frames_kept (indent : Z) (stack : list frame) :
  increasing stack → Forall (λ f, f.1 < indent) (pop_frames indent stack).
Proof.
  induction 1 as [|[depth l] stack Hs IH Hall]; [constructor|].
  cbn [pop_frames]. destruct (indent <=? depth) eqn:E; [done|].
  constructor; [cbn; lia|].
  eapply Forall_impl; [|exact Hall]. unfold above. intros [? ?]; cbn. lia.
Qed.

Lemma pop_frames_increasing (indent : Z) (stack : list frame) :
  increasing stack → increasing (pop_frames indent stack).
Proof.
  induction 1 as [|[depth l] stack Hs IH Hall]; [constructor|].
  cbn [pop_frames]. destruct (indent <=? depth); [done|].
  by constructor.
Qed.

Lemma pop_frames_last (indent : Z) (stack : list frame) (bottom : frame) :
  bottom.1 < indent → list.last stack = Some bottom →
  list.last (pop_frames indent stack) = Some bottom.
Proof.
  intros Hlt. induction stack as [|[depth l] stack IH]; [done|].
  intros Hlast. cbn [pop_frames]. destruct (indent <=? depth) eqn:E; [|done].
  apply IH. destruct stack as [|f stack]; [|done].
  injection Hlast as <-. cbn in Hlt. lia.
Qed.

Lemma pop_frames_Forall (P : frame → Prop) (indent : Z) (stack : list frame) :
  Forall P stack → Forall P (pop_frames indent stack).
Proof.
  induction 1 as [|[depth l] stack HP Hall IH]; [constructor|].
  cbn [pop_frames]. destruct (indent <=? depth); [done|]. by constructor.
Qed.

(** Once the frames at or below [indent] are gone, a deeper line pops
    nothing. *)
Lemma pop_frames_idle (indent : Z) (stack : list frame) :
  Forall (λ f, f.1 < indent) stack → pop_frames indent stack = stack.
Proof.
  destruct 1 as [|[depth l] stack Hd _]; [done|].
  cbn [pop_frames]. cbn in Hd.
  destruct (indent <=? depth) eqn:E; [lia|done].
Qed.

End Frames.

(** ** Mappings and the store *)

Section Store.

Lemma dict_get_set_eq (d : dict) (key : string) (v : value) :
  dict_get (dict_set d key v) key = Some v.
Proof.
  induction d as [|[k w] d IH]; cbn.
  - by rewrite String.eqb_refl.
  - destruct (String.eqb k key) eqn:E; cbn; by rewrite E.
Qed.

Lemma dict_get_set_ne (d : dict) (key key' : string) (v : value) :
  key ≠ key' → dict_get (dict_set d key v) key' = dict_get d key'.
Proof.
  intros Hne. induction d as [|[k w] d IH]; cbn.
  - by apply String.eqb_neq in Hne as ->.
  - destruct (String.eqb k key) eqn:E; cbn.
    + apply String.eqb_eq in E as ->.
      by apply String.eqb_neq in Hne as ->.
    + by rewrite IH.
Qed.

Lemma dict_set_Forall (P : string * value → Prop) (d : dict) (key : string)
    (v : value) :
  Forall P d → (∀ k, P (k, v)) → Forall P (dict_set d key v).
Proof.
  intros Hd Hv. induction Hd as [|[k w] d Hk Hd IH]; cbn.
  - by repeat constructor.
  - destruct (String.eqb k key); by constructor.
Qed.

Lemma dict_set_keys (d : dict) (key k : string) (v : value) :
  k ∈ (dict_set d key v).*1 → k ∈ d.*1 ∨ k = key.
Proof.
  induction d as [|[k' w] d IH]; cbn.
  - rewrite list_elem_of_singleton. by right.
  - destruct (String.eqb k' key) eqn:E; cbn; [by left|].
    rewrite !elem_of_cons. intros [->|Hin]; [by left; left|].
    destruct (IH Hin); [by left; right|by right].
Qed.

(** A mapping never holds a key twice. *)
Lemma dict_set_NoDup (d : dict) (key : string) (v : value) :
  NoDup d.*1 → NoDup (dict_set d key v).*1.
Proof.
  induction d as [|[k w] d IH]; cbn; intros Hd.
  - apply NoDup_singleton.
  - apply list.NoDup_cons in Hd as [Hk Hd].
    destruct (String.eqb k key) eqn:E; cbn; apply list.NoDup_cons.
    + done.
    + split; [|by apply IH].
      intros Hin. apply dict_set_keys in Hin as [Hin| ->]; [done|].
      by rewrite String.eqb_refl in E.
Qed.

(** A write keeps the order of the keys: an old key stays in its place, a
    new one goes to the end. *)
Lemma dict_set_order (d : dict) (key : string) (v : value) :
  (dict_set d key v).*1
  = if bool_decide (key ∈ d.*1) then d.*1 else d.*1 ++ [key].
Proof.
  induction d as [|[k w] d IH]; cbn; [done|].
  destruct (String.eqb k key) eqn:E; cbn.
  - apply String.eqb_eq in E as ->.
    rewrite bool_decide_eq_true_2; [done|]. by left.
  - apply String.eqb_neq in E. rewrite IH.
    destruct (bool_decide (key ∈ d.*1)) eqn:Hin.
    + apply bool_decide_eq_true_1 in Hin.
      rewrite bool_decide_eq_true_2; [done|]. by right.
    + apply bool_decide_eq_false_1 in Hin.
      rewrite bool_decide_eq_false_2; [done|].
      rewrite elem_of_cons. intros [?|?]; congruence.
Qed.

Lemma ref_ok_mono (p : loc) (n m : nat) (kv : string * value) :
  (n <= m)%nat → ref_ok p n kv → ref_ok p m kv.
Proof. unfold ref_ok. destruct kv.2; [done..|]. lia. Qed.

Lemma refs_ok_alloc (h : heap) : refs_ok h → refs_ok (h ++ [[]]).
Proof.
  intros Hh p d Hp. rewrite length_app. cbn [length].
  destruct (decide (p < length h)%nat) as [Hlt|Hge].
  - rewrite lookup_app_l in Hp by done.
    eapply Forall_impl; [|exact (Hh p d Hp)].
    intros kv. apply ref_ok_mono. lia.
  - rewrite lookup_app_r in Hp by lia.
    destruct (p - length h)%nat; cbn in Hp; [|done].
    injection Hp as <-. constructor.
Qed.

Lemma refs_ok_set (h : heap) (p : loc) (d : dict) (key : string) (v : value) :
  refs_ok h → h !! p = Some d → (∀ k, ref_ok p (length h) (k, v)) →
  refs_ok (<[p := dict_set d key v]> h).
Proof.
  intros Hh Hp Hv q e Hq. rewrite length_insert.
  destruct (decide (p = q)) as [<-|Hne].
  - rewrite list_lookup_insert_eq in Hq by (by eapply lookup_lt_Some).
    injection Hq as <-. apply dict_set_Forall; [by apply Hh|done].
  - rewrite list_lookup_insert_ne in Hq by done. by apply Hh.
Qed.

Lemma store_set_ok (h : heap) (p : loc) (d : dict) (key : string) (v : value) :
  h !! p = Some d → store_set h p key v = Ok (<[p := dict_set d key v]> h).
Proof. unfold store_set. by intros ->. Qed.

End Store.

(** ** The invariant of the loop *)

Section Invariant.

Lemma wf_init : wf init.
Proof.
  split; cbn.
  - repeat constructor.
  - done.
  - repeat constructor.
  - intros [|p] d Hp; cbn in Hp; [|done]. injection Hp as <-. constructor.
  - repeat constructor.
Qed.

End Invariant.

(** ** A retained line in a well-formed state *)

Section RetainedLine.

Variables (st : state) (raw_line : string).
Hypothesis Hwf : wf st.
Hypothesis Hskip : skipped raw_line = false.

(** The loop body on a retained line, in one piece. *)
Lemma parse_line_retained :
  ∃ depth parent rest d,
    pop_frames (line_indent raw_line) (st_stack st) = (depth, parent) :: rest
    ∧ st_heap st !! parent = Some d
    ∧ parse_line st raw_line
      = Ok (State
              (<[parent := dict_set d (line_key raw_line) (written st raw_line)]>
                 (if allocates raw_line then st_heap st ++ [[]] else st_heap st))
              (if pushes raw_line
               then (line_indent raw_line, length (st_heap st))
                      :: (depth, parent) :: rest
               else (depth, parent) :: rest)).
Proof.
  pose proof Hwf as [Hinc Hbot Hfr Hrefs _].
  pose proof (line_indent_nonneg raw_line) as Hind.
  assert (list.last (pop_frames (line_indent raw_line) (st_stack st))
          = Some (-1, root)) as Hlast
    by (apply pop_frames_last; [cbn; lia|done]).
  pose proof (pop_frames_Forall _ (line_indent raw_line) _ Hfr) as Hfr'.
  destruct (pop_frames (line_indent raw_line) (st_stack st))
    as [|[depth parent] rest] eqn:Hpop.
  { discriminate Hlast. }
  pose proof (Forall_inv Hfr') as Hparent. cbn in Hparent.
  destruct (lookup_lt_is_Some_2 _ _ Hparent) as [d Hd].
  exists depth, parent, rest, d. split; [done|]. split; [done|].
  unfold parse_line, written, allocates, pushes. rewrite Hskip, Hpop.
  destruct (String.eqb (line_value raw_line) "") eqn:E0.
  { cbn [alloc orb].
    erewrite store_set_ok; [done|]. by rewrite lookup_app_l. }
  destruct (String.eqb (line_value raw_line) "[]") eqn:E1.
  { assert (String.eqb (line_value raw_line) "{}" = false) as ->
      by (apply String.eqb_eq in E1; by rewrite E1).
    cbn [orb]. by erewrite store_set_ok. }
  destruct (String.eqb (line_value raw_line) "{}") eqn:E2.
  { cbn [alloc orb].
    erewrite store_set_ok; [done|]. by rewrite lookup_app_l. }
  cbn [orb]. by erewrite store_set_ok.
Qed.

(** The line writes [written st raw_line] under its key, in the mapping of
    the top frame that the pops leave. *)
Lemma parse_line_writes :
  ∃ st' parent,
    line_target st raw_line = Some (parent, line_key raw_line)
    ∧ parse_line st raw_line = Ok st'
    ∧ lookup_key (st_heap st') parent (line_key raw_line)
      = Some (written st raw_line).
Proof.
  destruct parse_line_retained
    as (depth & parent & rest & d & Hpop & Hd & Hline).
  eexists _, parent. split; [|split; [exact Hline|]].
  - unfold line_target. by rewrite Hskip, Hpop.
  - unfold lookup_key. cbn [st_heap].
    rewrite list_lookup_insert_eq.
    + cbn. apply dict_get_set_eq.
    + apply lookup_lt_Some in Hd.
      destruct (allocates raw_line); [|done]. rewrite length_app. lia.
Qed.

End RetainedLine.

Section Preservation.

Lemma for_each_app {S A : Type} (body : S → A → outcome S) (st : S)
    (l1 l2 : list A) :
  for_each body st (l1 ++ l2)
  = st' ← for_each body st l1; for_each body st' l2.
Proof.
  revert st. induction l1 as [|x l1 IH]; intros st; [done|].
  cbn [app for_each]. destruct (body st x) as [st'|e]; cbn; [apply IH|done].
Qed.

Lemma parse_line_wf (st : state) (raw_line : string) :
  wf st → ∃ st', parse_line st raw_line = Ok st' ∧ wf st'.
Proof.
  intros Hwf. destruct (skipped raw_line) eqn:Hskip.
  { exists st. unfold parse_line. by rewrite Hskip. }
  destruct (parse_line_retained st raw_line Hwf Hskip)
    as (depth & parent & rest & d & Hpop & Hd & ->).
  eexists; split; [reflexivity|].
  destruct Hwf as [Hinc Hbot Hfr Hrefs Hkeys].
  pose proof (line_indent_nonneg raw_line) as Hind.
  pose proof (pop_frames_increasing (line_indent raw_line) _ Hinc) as Hinc'.
  pose proof (pop_frames_kept (line_indent raw_line) _ Hinc) as Hkept.
  pose proof (pop_frames_Forall _ (line_indent raw_line) _ Hfr) as Hfr'.
  assert (list.last (pop_frames (line_indent raw_line) (st_stack st))
          = Some (-1, root)) as Hlast
    by (apply pop_frames_last; [cbn; lia|done]).
  rewrite Hpop in Hinc', Hkept, Hfr', Hlast.
  pose proof (lookup_lt_Some _ _ _ Hd) as Hparent.
  set (h' := if allocates raw_line then st_heap st ++ [[]] else st_heap st).
  assert (length (st_heap st) <= length h')%nat as Hlen.
  { subst h'. destruct (allocates raw_line); [|done].
    rewrite length_app. cbn. lia. }
  assert (h' !! parent = Some d) as Hd'.
  { subst h'. destruct (allocates raw_line); [|done]. by rewrite lookup_app_l. }
  assert (refs_ok h') as Hrefs'.
  { subst h'. destruct (allocates raw_line); [|done]. by apply refs_ok_alloc. }
  assert (∀ k, ref_ok parent (length h') (k, written st raw_line)) as Hv.
  { intros k. subst h'. unfold ref_ok, written, allocates. cbn [snd].
    destruct (String.eqb (line_value raw_line) ""); cbn [orb].
    { rewrite length_app. cbn. lia. }
    destruct (String.eqb (line_value raw_line) "[]"); [done|].
    destruct (String.eqb (line_value raw_line) "{}"); [|done].
    rewrite length_app. cbn. lia. }
  split; cbn [st_heap st_stack].
  - destruct (pushes raw_line); [|done].
    constructor; [done|].
    eapply Forall_impl; [|exact Hkept]. unfold above. by intros [? ?].
  - by destruct (pushes raw_line).
  - rewrite length_insert.
    assert (Forall (λ f : frame, (f.2 < length h')%nat)
              ((depth, parent) :: rest)) as Hall.
    { eapply Forall_impl; [|exact Hfr']. intros [? ?]; cbn. lia. }
    destruct (pushes raw_line) eqn:Hpush; [|done].
    constructor; [|done]. cbn [snd]. subst h'.
    unfold pushes in Hpush. unfold allocates. rewrite Hpush. cbn [orb].
    rewrite length_app. cbn. lia.
  - by apply refs_ok_set.
  - apply Forall_insert.
    + subst h'. destruct (allocates raw_line); [|done].
      apply Forall_app. split; [done|]. repeat constructor.
    + apply dict_set_NoDup.
      exact (Forall_lookup_1 (λ d : dict, NoDup d.*1) _ _ _ Hkeys Hd).
Qed.

Lemma for_each_wf (lines : list string) (st : state) :
  wf st → ∃ st', for_each parse_line st lines = Ok st' ∧ wf st'.
Proof.
  revert st. induction lines as [|raw_line lines IH]; intros st Hwf.
  - by exists st.
  - destruct (parse_line_wf st raw_line Hwf) as (st1 & Hst1 & Hwf1).
    destruct (IH st1 Hwf1) as (st' & Hst' & Hwf').
    exists st'. split; [|done]. cbn [for_each]. by rewrite Hst1.
Qed.

(** The root frame outlives the pops made for any line. *)
Lemma pop_frames_root (st : state) (raw_line : string) :
  wf st →
  list.last (pop_frames (line_indent raw_line) (st_stack st)) = Some (-1, root).
Proof.
  intros Hwf. pose proof (line_indent_nonneg raw_line) as Hind.
  apply pop_frames_last; [cbn; lia|apply Hwf].
Qed.

(** The loop never raises, and its state is well formed after any lines. *)
Lemma parse_lines_wf (lines : list string) :
  ∃ st, parse_lines lines = Ok st ∧ wf st.
Proof. apply for_each_wf, wf_init. Qed.

(** References only point forward, so a walk from [l] ends within
    [length h - l] steps. *)
Lemma reify_dict (h : heap) (fuel : nat) (l : loc) :
  refs_ok h → (l < length h)%nat → (length h - l <= fuel)%nat →
  ∃ entries, reify fuel h (VDict l) = Some (TDict entries).
Proof.
  intros Hrefs. revert l.
  induction fuel as [|fuel IH]; intros l Hl Hfuel; [lia|].
  destruct (lookup_lt_is_Some_2 _ _ Hl) as [d Hd].
  cbn [reify]. rewrite Hd. cbn.
  assert (is_Some (mapM (λ kv : string * value,
                           t ← reify fuel h kv.2; Some (kv.1, t)) d)) as [es Hes].
  { apply mapM_is_Some. eapply Forall_impl; [|exact (Hrefs l d Hd)].
    intros [k v]. unfold ref_ok.
    destruct v as [s| |l']; cbn; intros Hl'; [by destruct fuel; eexists..|].
    destruct (IH l') as [es' ->]; [lia..|]. by eexists. }
  rewrite Hes. by eexists.
Qed.

Lemma read_root_ok (st : state) :
  wf st → ∃ config, read_root (st_heap st) = Ok config.
Proof.
  intros [_ Hbot Hfr Hrefs _]. unfold read_root.
  assert (0 < length (st_heap st))%nat as Hlen.
  { destruct (st_stack st) as [|[depth l] stack]; [done|].
    pose proof (Forall_inv Hfr) as Hl. cbn in Hl. lia. }
  destruct (reify_dict (st_heap st) (length (st_heap st)) root Hrefs)
    as [entries ->]; [done|lia|]. by eexists.
Qed.

End Preservation.

(** ** What a line writes *)

Section Insertion.

Lemma parse_lines_snoc (pre : list string) (raw_line : string) (st : state) :
  parse_lines pre = Ok st →
  parse_lines (pre ++ [raw_line]) = parse_line st raw_line.
Proof.
  intros Hpre. unfold parse_lines in *. rewrite for_each_app, Hpre.
  cbn. by destruct (parse_line st raw_line).
Qed.

Lemma inserts_written (pre : list string) (raw_line : string) :
  skipped raw_line = false →
  ∃ st, parse_lines pre = Ok st ∧ wf st ∧ inserts pre raw_line (written st raw_line).
Proof.
  intros Hskip. destruct (parse_lines_wf pre) as (st & Hst & Hwf).
  destruct (parse_line_writes st raw_line Hwf Hskip)
    as (st' & parent & Htarget & Hline & Hget).
  exists st. split; [done|]. split; [done|].
  exists st, st', parent. by rewrite (parse_lines_snoc _ _ _ Hst).
Qed.

(** A line leaves alone every key it does not write. *)
Lemma parse_line_frame (st st' : state) (raw_line : string) (p : loc)
    (key : string) :
  wf st → parse_line st raw_line = Ok st' →
  line_target st raw_line ≠ Some (p, key) →
  (p < length (st_heap st))%nat →
  lookup_key (st_heap st') p key = lookup_key (st_heap st) p key.
Proof.
  intros Hwf Hline Hother Hp. destruct (skipped raw_line) eqn:Hskip.
  { unfold parse_line in Hline. rewrite Hskip in Hline. by injection Hline as <-. }
  destruct (parse_line_retained st raw_line Hwf Hskip)
    as (depth & parent & rest & d & Hpop & Hd & Hline').
  rewrite Hline' in Hline. injection Hline as <-.
  unfold line_target in Hother. rewrite Hskip, Hpop in Hother.
  unfold lookup_key. cbn [st_heap].
  assert ((if allocates raw_line then st_heap st ++ [[]] else st_heap st) !! p
          = st_heap st !! p) as Hsame.
  { destruct (allocates raw_line); [|done]. by rewrite lookup_app_l. }
  destruct (decide (parent = p)) as [->|Hne].
  - rewrite list_lookup_insert_eq.
    + rewrite Hd. cbn. apply dict_get_set_ne. congruence.
    + destruct (allocates raw_line); [|done]. rewrite length_app. lia.
  - rewrite list_lookup_insert_ne by done. by rewrite Hsame.
Qed.

Lemma parse_line_length (st st' : state) (raw_line : string) :
  wf st → parse_line st raw_line = Ok st' →
  (length (st_heap st) <= length (st_heap st'))%nat.
Proof.
  intros Hwf Hline. destruct (skipped raw_line) eqn:Hskip.
  { unfold parse_line in Hline. rewrite Hskip in Hline. by injection Hline as <-. }
  destruct (parse_line_retained st raw_line Hwf Hskip)
    as (depth & parent & rest & d & Hpop & Hd & Hline').
  rewrite Hline' in Hline. injection Hline as <-. cbn [st_heap].
  rewrite length_insert. destruct (allocates raw_line); [|done].
  rewrite length_app. lia.
Qed.

End Insertion.

(** * The claims *)

(** C2. [parse_yaml] returns a root mapping for every finite list of lines
    and raises on none.  The loop reaches a state after any lines; in it the
    root frame, of depth -1, is at the bottom of the stack; the indentation
    of any line is at least 0, so the pops made for it leave a stack that is
    not empty and still ends with the root frame, and the access to the top
    of the stack that follows is within bounds. *)
Theorem parse_yaml_total (lines : list string) :
  (∃ config, parse_yaml lines = Ok config)
  ∧ ∃ st, parse_lines lines = Ok st
      ∧ list.last (st_stack st) = Some (-1, root)
      ∧ ∀ raw_line,
          0 <= line_indent raw_line
          ∧ pop_frames (line_indent raw_line) (st_stack st) ≠ []
          ∧ list.last (pop_frames (line_indent raw_line) (st_stack st))
            = Some (-1, root)
          ∧ ∃ st', parse_line st raw_line = Ok st'.
Proof.
  destruct (parse_lines_wf lines) as (st & Hst & Hwf). split.
  - destruct (read_root_ok st Hwf) as [config Hconfig].
    exists config. unfold parse_yaml. by rewrite Hst.
  - exists st. split; [done|]. split; [apply Hwf|].
    intros raw_line. pose proof (line_indent_nonneg raw_line) as Hind.
    pose proof (pop_frames_root st raw_line Hwf) as Hlast.
    split; [done|]. split; [|split; [done|]].
    + intros Hnil. by rewrite Hnil in Hlast.
    + destruct (parse_line_wf st raw_line Hwf) as (st' & Hst' & _). by exists st'.
Qed.

(** C3. After any prefix of the input lines the frame stack is strictly
    increasing in depth from the root frame, of depth -1, at the bottom to
    the top frame.  For any line read next, the pops remove exactly the
    frames of depth at least the line's indentation and keep the others, all
    shallower than the line; the frame on top of what is kept is the deepest
    of them, and a retained line writes its key into that frame's mapping. *)
Theorem stack_strictly_increasing (lines : list string) (n : nat) :
  ∃ st, parse_lines (take n lines) = Ok st
    ∧ increasing (st_stack st)
    ∧ list.last (st_stack st) = Some (-1, root)
    ∧ ∀ raw_line,
        ∃ popped depth parent rest,
          st_stack st = popped ++ (depth, parent) :: rest
          ∧ pop_frames (line_indent raw_line) (st_stack st)
            = (depth, parent) :: rest
          ∧ Forall (λ f : frame, line_indent raw_line <= f.1) popped
          ∧ depth < line_indent raw_line
          ∧ Forall (λ f : frame, f.1 < depth) rest
          ∧ increasing ((depth, parent) :: rest)
          ∧ (skipped raw_line = false →
             ∃ st', parse_line st raw_line = Ok st'
                    ∧ lookup_key (st_heap st') parent (line_key raw_line)
                      = Some (written st raw_line)).
Proof.
  destruct (parse_lines_wf (take n lines)) as (st & Hst & Hwf).
  exists st. split; [done|]. split; [apply Hwf|]. split; [apply Hwf|].
  intros raw_line.
  destruct (pop_frames_split (line_indent raw_line) (st_stack st))
    as (popped & Hsplit & Hpopped).
  pose proof (pop_frames_kept (line_indent raw_line) _ (wf_increasing _ Hwf))
    as Hkept.
  pose proof (pop_frames_increasing (line_indent raw_line) _ (wf_increasing _ Hwf))
    as Hinc.
  pose proof (pop_frames_root st raw_line Hwf) as Hlast.
  destruct (pop_frames (line_indent raw_line) (st_stack st))
    as [|[depth parent] rest] eqn:Hpop; [done|].
  exists popped, depth, parent, rest.
  split; [done|]. split; [done|]. split; [done|].
  split; [exact (Forall_inv Hkept)|]. split; [|split; [done|]].
  - apply StronglySorted_inv in Hinc as [_ Hrest].
    eapply Forall_impl; [|exact Hrest]. by intros [? ?].
  - intros Hskip.
    destruct (parse_line_writes st raw_line Hwf Hskip)
      as (st' & parent' & Htarget & Hline & Hget).
    unfold line_target in Htarget. rewrite Hskip, Hpop in Htarget.
    injection Htarget as <-. by exists st'.
Qed.

(** C6. A line is split at its first colon only.  The stripped text of a
    line is the line without the white space at its two ends: when the line
    is some white space, a [body] that neither starts nor ends with white
    space, and some white space, its stripped text is [body].  When the
    stripped text is some [key], a colon and some [rest], with no colon in
    [key], the key is [key] as it stands and the value is [rest] with the
    white space around it removed, whatever colons [rest] holds ([strip]
    takes the white space off both ends and nothing else); when the stripped
    text has no colon, the key is all of it and the value is empty.  So a
    line that is white space, a [key] with no colon that does not start with
    white space, a colon, a [rest] that does not end with white space, and
    white space, has the key [key] and the value [rest] stripped.  A
    retained line writes under that key.  The line
    [SMTP_URL: smtp://localhost:1025] keeps the value
    [smtp://localhost:1025]; the line [a : 1] has the key [a] followed by a
    space; the white space around [  host: dev.local  ] is in neither its
    key nor its value. *)
Theorem split_at_first_colon (pre : list string) (raw_line : string) :
  (∀ key rest,
     line_stripped raw_line = key +:+ String ":" rest →
     contains ":" key = false →
     line_key raw_line = key ∧ line_value raw_line = strip rest)
  ∧ (∀ s, (∃ pre post, s = pre +:+ strip s +:+ post
                       ∧ all_space pre = true ∧ all_space post = true)
          ∧ (∀ c s', strip s = String c s' → is_space c = false)
          ∧ (∀ c, last_char (strip s) = Some c → is_space c = false))
  ∧ (contains ":" (line_stripped raw_line) = false →
     line_key raw_line = line_stripped raw_line ∧ line_value raw_line = "")
  ∧ (skipped raw_line = false →
     ∃ st, parse_lines pre = Ok st ∧ inserts pre raw_line (written st raw_line))
  ∧ line_key "SMTP_URL: smtp://localhost:1025" = "SMTP_URL"
  ∧ line_value "SMTP_URL: smtp://localhost:1025" = "smtp://localhost:1025"
  ∧ parse_yaml ["SMTP_URL: smtp://localhost:1025"]
    = Ok [("SMTP_URL", TStr "smtp://localhost:1025")]
  ∧ line_key "a : 1" = "a "
  ∧ (∃ lead trail,
       raw_line = lead +:+ line_stripped raw_line +:+ trail
       ∧ all_space lead = true ∧ all_space trail = true)
  ∧ (∀ c s', line_stripped raw_line = String c s' → is_space c = false)
  ∧ (∀ c, last_char (line_stripped raw_line) = Some c → is_space c = false)
  ∧ (∀ lead body trail,
       raw_line = lead +:+ body +:+ trail →
       all_space lead = true → all_space trail = true →
       (∀ c s', body = String c s' → is_space c = false) →
       (∀ c, last_char body = Some c → is_space c = false) →
       line_stripped raw_line = body)
  ∧ (∀ lead key rest trail,
       raw_line = lead +:+ (key +:+ String ":" rest) +:+ trail →
       all_space lead = true → all_space trail = true →
       contains ":" key = false →
       (∀ c s', key = String c s' → is_space c = false) →
       (∀ c, last_char rest = Some c → is_space c = false) →
       line_key raw_line = key ∧ line_value raw_line = strip rest)
  ∧ (∀ lead body trail,
       raw_line = lead +:+ body +:+ trail →
       all_space lead = true → all_space trail = true →
       contains ":" body = false →
       (∀ c s', body = String c s' → is_space c = false) →
       (∀ c, last_char body = Some c → is_space c = false) →
       line_key raw_line = body ∧ line_value raw_line = "")
  ∧ line_stripped "  host: dev.local  " = "host: dev.local"
  ∧ line_key "  host: dev.local  " = "host"
  ∧ line_value "  host: dev.local  " = "dev.local"
  ∧ line_key ("  a : b:c " +:+ String (ascii_of_N 9) "") = "a "
  ∧ line_value ("  a : b:c " +:+ String (ascii_of_N 9) "") = "b:c"
  ∧ line_key "   plain   " = "plain"
  ∧ line_value "   plain   " = ""
  ∧ parse_yaml ["  host: dev.local  "] = Ok [("host", TStr "dev.local")].
Proof.
  assert (∀ lead body trail,
            raw_line = lead +:+ body +:+ trail →
            all_space lead = true → all_space trail = true →
            (∀ c s', body = String c s' → is_space c = false) →
            (∀ c, last_char body = Some c → is_space c = false) →
            line_stripped raw_line = body) as Hbody.
  { intros lead body trail -> Hlead Htrail Hfirst Hlast.
    by apply strip_unique. }
  assert (∀ key rest,
            line_stripped raw_line = key +:+ String ":" rest →
            contains ":" key = false →
            line_key raw_line = key ∧ line_value raw_line = strip rest) as Hsplit.
  { intros key rest Hs Hkey. unfold line_key, line_value.
    by rewrite Hs, (partition_first ":" key rest Hkey). }
  assert (contains ":" (line_stripped raw_line) = false →
          line_key raw_line = line_stripped raw_line ∧ line_value raw_line = "")
    as Hnone.
  { intros Hnone. unfold line_key, line_value.
    by rewrite (partition_absent ":" _ Hnone). }
  split; [done|]. split; [apply strip_spec|]. split; [done|]. split.
  { intros Hskip.
    destruct (inserts_written pre raw_line Hskip) as (st & Hst & _ & Hins).
    by exists st. }
  do 4 (split; [by vm_compute|]).
  split; [apply (strip_spec raw_line)|].
  split; [apply (strip_spec raw_line)|].
  split; [apply (strip_spec raw_line)|].
  split; [done|]. split; [|split].
  - intros lead key rest trail Hraw Hlead Htrail Hkey Hfirst Hlast.
    apply Hsplit; [|done].
    apply (Hbody lead _ trail Hraw Hlead Htrail).
    + intros c s' Hs. destruct key as [|k key].
      * rewrite append_nil in Hs. by injection Hs as <- _.
      * rewrite append_cons in Hs. injection Hs as <- _. by eapply Hfirst.
    + intros c Hc. destruct rest as [|r rest].
      * rewrite last_char_append in Hc. by injection Hc as <-.
      * apply Hlast. revert Hc. clear.
        induction key as [|k key IH]; [done|].
        rewrite append_cons. cbn [last_char].
        destruct (key +:+ String ":" (String r rest)) eqn:E; [|done].
        by destruct key.
  - intros lead body trail Hraw Hlead Htrail Hcolon Hfirst Hlast.
    pose proof (Hbody lead body trail Hraw Hlead Htrail Hfirst Hlast) as Hs.
    rewrite <- Hs. apply Hnone. by rewrite Hs.
  - by vm_compute.
Qed.

(** C4, as stated, fails on a value that is one double quote: it is not
    empty, is no empty-container token and is not any text wrapped in a pair
    of quotes, yet it is not stored as it stands: the line [k: ] followed by
    one double quote stores the empty string. *)
Lemma lone_quote_not_kept :
  line_value ("k: " +:+ dquote) = dquote
  ∧ dquote ≠ "" ∧ dquote ≠ "[]" ∧ dquote ≠ "{}"
  ∧ (∀ q inner, ¬ wrapped q inner dquote)
  ∧ unquote dquote ≠ dquote
  ∧ parse_yaml ["k: " +:+ dquote] = Ok [("k", TStr "")].
Proof.
  repeat split; try done.
  intros q inner Hw. unfold wrapped, dquote in Hw.
  injection Hw as _ Hw. by destruct inner.
Qed.

(** C4, amended.  A retained line whose value is not empty and is no
    empty-container token stores a string under its key: the text between
    the quotes when the value is some text wrapped in a pair of single or of
    double quotes (one pair is removed, quotes inside stay); the empty
    string when the value is one quote character alone; the value as it
    stands in every other case.  A value [secret value] in double quotes
    gives [secret value], ['x'] gives [x], and [va], a double quote and [l]
    stay as they are. *)
Theorem quote_stripping (pre : list string) (raw_line : string) :
  skipped raw_line = false →
  line_value raw_line ≠ "" →
  line_value raw_line ≠ "[]" →
  line_value raw_line ≠ "{}" →
  inserts pre raw_line (VStr (unquote (line_value raw_line)))
  ∧ (∀ q inner,
       q = quote1 ∨ q = quote2 → wrapped q inner (line_value raw_line) →
       unquote (line_value raw_line) = inner)
  ∧ (line_value raw_line = String quote1 "" ∨ line_value raw_line = String quote2 "" →
     unquote (line_value raw_line) = "")
  ∧ (line_value raw_line ≠ String quote1 "" →
     line_value raw_line ≠ String quote2 "" →
     (∀ q inner, q = quote1 ∨ q = quote2 → ¬ wrapped q inner (line_value raw_line)) →
     unquote (line_value raw_line) = line_value raw_line)
  ∧ parse_yaml ["k: " +:+ dquoted "secret value"] = Ok [("k", TStr "secret value")]
  ∧ parse_yaml ["k: 'x'"] = Ok [("k", TStr "x")]
  ∧ parse_yaml ["k: va" +:+ dquote +:+ "l"] = Ok [("k", TStr ("va" +:+ dquote +:+ "l"))]
  ∧ parse_yaml ["k: " +:+ dquoted (dquoted "a")] = Ok [("k", TStr (dquoted "a"))].
Proof.
  intros Hskip Hne Hlist Hdict. split; [|split; [|split; [|split]]].
  - destruct (inserts_written pre raw_line Hskip) as (st & _ & _ & Hins).
    unfold written in Hins.
    apply String.eqb_neq in Hne, Hlist, Hdict.
    by rewrite Hne, Hlist, Hdict in Hins.
  - intros q inner Hq Hw. by apply (unquote_wrapped q).
  - intros [-> | ->]; by apply unquote_lone; auto.
  - apply unquote_plain.
  - by vm_compute.
Qed.

Lemma quote_stripping_witness : inserts [] "k: 'x'" (VStr "x").
Proof.
  apply (quote_stripping [] "k: 'x'"); [reflexivity|by vm_compute..].
Defined.

(** C10. A retained line whose value is exactly one quote character, single
    or double, takes the quote-stripping branch, the one character being the
    first and the last of the value, and stores the empty string: the line
    [k: ] followed by one double quote gives the entry of [k] with the empty
    string. *)
Theorem lone_quote_empty (pre : list string) (raw_line : string) (q : ascii) :
  q = quote1 ∨ q = quote2 →
  skipped raw_line = false →
  line_value raw_line = String q "" →
  startswith (String q "") (line_value raw_line)
    && endswith (String q "") (line_value raw_line) = true
  ∧ unquote (line_value raw_line) = ""
  ∧ inserts pre raw_line (VStr "")
  ∧ parse_yaml ["k: " +:+ dquote] = Ok [("k", TStr "")]
  ∧ parse_yaml ["k: '"] = Ok [("k", TStr "")].
Proof.
  intros Hq Hskip Hvalue.
  assert (unquote (line_value raw_line) = "") as Hun
    by (rewrite Hvalue; by apply unquote_lone).
  split; [|split; [done|split]].
  - rewrite Hvalue. apply starts_ends_with. by left.
  - destruct (inserts_written pre raw_line Hskip) as (st & _ & _ & Hins).
    unfold written in Hins. rewrite Hvalue in Hins.
    destruct Hq as [-> | ->]; exact Hins.
  - by vm_compute.
Qed.

Lemma lone_quote_empty_witness : inserts ["a:"] ("  k: " +:+ dquote) (VStr "").
Proof.
  apply (lone_quote_empty ["a:"] ("  k: " +:+ dquote) quote2);
    [by right|reflexivity..].
Defined.

(** C5. A retained line whose value is the token of the empty mapping
    stores a new, empty mapping under its key, and one whose value is the
    token of the empty list stores an empty list; the stack after the line
    is what the pops left, with no frame for the new container.  A retained
    line that follows with a larger indentation pops nothing and writes its
    key into the same mapping as the first line did; the mapping stored by
    the token is still empty after it. *)
Theorem empty_container_no_frame (pre : list string) (raw_line next_line : string) :
  skipped raw_line = false →
  line_value raw_line = "{}" ∨ line_value raw_line = "[]" →
  skipped next_line = false →
  line_indent raw_line < line_indent next_line →
  ∃ st st' st'' parent,
    parse_lines pre = Ok st
    ∧ line_target st raw_line = Some (parent, line_key raw_line)
    ∧ parse_lines (pre ++ [raw_line]) = Ok st'
    ∧ (line_value raw_line = "{}" →
       ∃ node, lookup_key (st_heap st') parent (line_key raw_line) = Some (VDict node)
               ∧ node ≠ parent
               ∧ st_heap st' !! node = Some []
               ∧ st_heap st'' !! node = Some [])
    ∧ (line_value raw_line = "[]" →
       lookup_key (st_heap st') parent (line_key raw_line) = Some VList)
    ∧ st_stack st' = pop_frames (line_indent raw_line) (st_stack st)
    ∧ pop_frames (line_indent next_line) (st_stack st') = st_stack st'
    ∧ line_target st' next_line = Some (parent, line_key next_line)
    ∧ parse_lines (pre ++ [raw_line; next_line]) = Ok st''
    ∧ lookup_key (st_heap st'') parent (line_key next_line)
      = Some (written st' next_line).
Proof.
  intros Hskip Hvalue Hskip' Hdeeper.
  destruct (parse_lines_wf pre) as (st & Hst & Hwf).
  destruct (parse_line_retained st raw_line Hwf Hskip)
    as (depth & parent & rest & d & Hpop & Hd & Hline).
  destruct (parse_line_wf st raw_line Hwf) as (st' & Hline' & Hwf').
  assert (pushes raw_line = false) as Hpush
    by (unfold pushes; by destruct Hvalue as [-> | ->]).
  rewrite Hpush in Hline.
  assert (st_stack st' = (depth, parent) :: rest) as Hstack'
    by (rewrite Hline in Hline'; by injection Hline' as <-).
  assert (pop_frames (line_indent next_line) (st_stack st') = st_stack st')
    as Hidle.
  { apply pop_frames_idle. rewrite Hstack', <- Hpop.
    eapply Forall_impl;
      [|exact (pop_frames_kept (line_indent raw_line) _ (wf_increasing _ Hwf))].
    intros [? ?]; cbn. lia. }
  destruct (parse_line_retained st' next_line Hwf' Hskip')
    as (depth' & parent' & rest' & d' & Hpop' & Hd' & Hnext).
  rewrite Hidle, Hstack' in Hpop'. injection Hpop' as <- <- <-.
  destruct (parse_line_writes st raw_line Hwf Hskip)
    as (st1 & parent1 & Htarget & Hline1 & Hget).
  rewrite Hline' in Hline1. injection Hline1 as <-.
  assert (parent1 = parent) as ->.
  { unfold line_target in Htarget. rewrite Hskip, Hpop in Htarget.
    by injection Htarget as <-. }
  destruct (parse_line_writes st' next_line Hwf' Hskip')
    as (st'' & parent2 & Htarget' & Hline2 & Hget').
  assert (parent2 = parent) as ->.
  { unfold line_target in Htarget'. rewrite Hskip', Hidle, Hstack' in Htarget'.
    by injection Htarget' as <-. }
  pose proof (lookup_lt_Some _ _ _ Hd) as Hparent.
  exists st, st', st'', parent.
  split; [done|]. split; [done|].
  split; [by rewrite (parse_lines_snoc _ _ _ Hst)|]. split.
  { intros Hmap. exists (length (st_heap st)).
    assert (st_heap st' !! length (st_heap st) = Some []) as Hnode.
    { rewrite Hline in Hline'. injection Hline' as <-. cbn [st_heap].
      unfold allocates. rewrite Hmap. cbn.
      rewrite list_lookup_insert_ne by lia.
      rewrite lookup_app_r by lia. by rewrite Nat.sub_diag. }
    split; [|split; [lia|split; [done|]]].
    - rewrite Hget. unfold written. by rewrite Hmap.
    - rewrite Hnext in Hline2. injection Hline2 as <-. cbn [st_heap].
      rewrite list_lookup_insert_ne by lia.
      destruct (allocates next_line); [|done].
      rewrite lookup_app_l; [done|]. by eapply lookup_lt_Some. }
  split.
  { intros Hlist. rewrite Hget. unfold written. by rewrite Hlist. }
  split; [by rewrite Hstack'|]. split; [done|]. split; [done|]. split; [|done].
  replace (pre ++ [raw_line; next_line]) with ((pre ++ [raw_line]) ++ [next_line])
    by (by rewrite <- app_assoc).
  rewrite (parse_lines_snoc _ _ st'); [done|].
  by rewrite (parse_lines_snoc _ _ _ Hst).
Qed.

Lemma empty_container_no_frame_witness :
  ∃ st st' st'' parent,
    parse_lines ["top:"] = Ok st
    ∧ line_target st "  data: {}" = Some (parent, "data")
    ∧ parse_lines (["top:"] ++ ["  data: {}"]) = Ok st'
    ∧ (line_value "  data: {}" = "{}" →
       ∃ node, lookup_key (st_heap st') parent "data" = Some (VDict node)
               ∧ node ≠ parent
               ∧ st_heap st' !! node = Some []
               ∧ st_heap st'' !! node = Some [])
    ∧ (line_value "  data: {}" = "[]" →
       lookup_key (st_heap st') parent "data" = Some VList)
    ∧ st_stack st' = pop_frames 2 (st_stack st)
    ∧ pop_frames 4 (st_stack st') = st_stack st'
    ∧ line_target st' "    x: 1" = Some (parent, "x")
    ∧ parse_lines (["top:"] ++ ["  data: {}"; "    x: 1"]) = Ok st''
    ∧ lookup_key (st_heap st'') parent "x" = Some (written st' "    x: 1").
Proof.
  apply (empty_container_no_frame ["top:"] "  data: {}" "    x: 1");
    [reflexivity|left; reflexivity|reflexivity|reflexivity].
Defined.

(** Nesting three levels deep, siblings in input order, and a line whose
    indentation steps back to a level that was never opened. *)
Example nesting_examples :
  parse_yaml ["a:"; "  b:"; "    c: 1"; "  d: 2"; "e: 3"]
  = Ok [("a", TDict [("b", TDict [("c", TStr "1")]); ("d", TStr "2")]);
        ("e", TStr "3")]
  ∧ parse_yaml ["p:"; "  a: 1"; "  b: 2"; "  c: 3"]
    = Ok [("p", TDict [("a", TStr "1"); ("b", TStr "2"); ("c", TStr "3")])]
  ∧ parse_yaml ["a:"; "    b: 1"; "  c: 2"]
    = Ok [("a", TDict [("b", TStr "1"); ("c", TStr "2")])]
  ∧ parse_yaml ["# only a comment"; ""; "no colon here"]
    = Ok [("no colon here", TDict [])].
Proof. by vm_compute. Qed.

(** The two cases of C5 on the lines of the specification. *)
Example empty_container_tokens :
  parse_yaml ["data: {}"; "  x: 1"] = Ok [("data", TDict []); ("x", TStr "1")]
  ∧ parse_yaml ["data: []"; "  x: 1"] = Ok [("data", TList []); ("x", TStr "1")]
  ∧ parse_yaml ["data:"; "  x: 1"] = Ok [("data", TDict [("x", TStr "1")])].
Proof. by vm_compute. Qed.

(** ** Overwriting *)

Section LastWrite.

Lemma untouched_keeps (p : loc) (key : string) (post : list string) (st : state) :
  wf st → (p < length (st_heap st))%nat → untouched p key st post →
  ∃ st', for_each parse_line st post = Ok st' ∧ wf st'
         ∧ lookup_key (st_heap st') p key = lookup_key (st_heap st) p key.
Proof.
  revert st. induction post as [|raw_line post IH]; intros st Hwf Hp Hun.
  - by exists st.
  - destruct Hun as [Hother Hrest].
    destruct (parse_line_wf st raw_line Hwf) as (st1 & Hline & Hwf1).
    pose proof (parse_line_length st st1 raw_line Hwf Hline) as Hlen.
    destruct (IH st1 Hwf1 ltac:(lia) (Hrest st1 Hline)) as (st' & Hst' & Hwf' & Hsame).
    exists st'. cbn [for_each]. rewrite Hline. cbn.
    split; [done|]. split; [done|].
    rewrite Hsame. by eapply parse_line_frame.
Qed.

(** The entry of [key] in the tree read off a mapping is the tree of the
    value stored under [key]. *)
Lemma mapM_dict_get (f : value → option tree) (d : dict)
    (entries : list (string * tree)) (key : string) (v : value) :
  mapM (λ kv : string * value, t ← f kv.2; Some (kv.1, t)) d = Some entries →
  dict_get d key = Some v →
  ∃ t, f v = Some t ∧ dict_get entries key = Some t.
Proof.
  revert entries. induction d as [|[k w] d IH]; intros entries Hm Hget; [done|].
  cbn in Hm. destruct (f w) as [t|] eqn:Hw; [|done]. cbn in Hm.
  destruct (mapM _ d) as [es|] eqn:Hes; [|done]. cbn in Hm.
  injection Hm as <-. cbn in Hget |- *.
  destruct (String.eqb k key).
  - injection Hget as <-. by exists t.
  - by apply IH.
Qed.

Lemma read_root_get (h : heap) (config : list (string * tree)) (key : string)
    (v : value) :
  read_root h = Ok config → lookup_key h root key = Some v →
  ∃ fuel t, reify fuel h v = Some t ∧ dict_get config key = Some t.
Proof.
  unfold read_root, lookup_key. intros Hread Hget.
  destruct (length h) as [|fuel]; [done|]. cbn [reify] in Hread.
  destruct (h !! root) as [d|]; [|done]. cbn in Hread, Hget.
  destruct (mapM _ d) as [entries|] eqn:Hm; [|done]. cbn in Hread.
  injection Hread as <-.
  destruct (mapM_dict_get _ d entries key v Hm Hget) as (t & Ht & Hentry).
  by exists fuel, t.
Qed.

Lemma reify_get (fuel : nat) (h : heap) (l : loc) (t : tree) (key : string)
    (v : value) :
  reify fuel h (VDict l) = Some t → lookup_key h l key = Some v →
  ∃ fuel' t', reify fuel' h v = Some t' ∧ get_field (Some t) key = Some t'.
Proof.
  unfold lookup_key. intros Hread Hget.
  destruct fuel as [|fuel]; [done|]. cbn [reify] in Hread.
  destruct (h !! l) as [d|]; [|done]. cbn in Hread, Hget.
  destruct (mapM _ d) as [entries|] eqn:Hm; [|done]. cbn in Hread.
  injection Hread as <-.
  destruct (mapM_dict_get _ d entries key v Hm Hget) as (t' & Ht' & Hentry).
  by exists fuel, t'.
Qed.

(** The tree read off a mapping has, along a path of keys, the tree read
    off the mapping the path leads to. *)
Lemma reify_path (path : list string) (fuel : nat) (h : heap) (l p : loc)
    (t : tree) :
  reify fuel h (VDict l) = Some t → heap_at h l path = Some p →
  ∃ fuel' t', reify fuel' h (VDict p) = Some t'
              ∧ foldl get_field (Some t) path = Some t'.
Proof.
  revert fuel l t. induction path as [|key path IH]; intros fuel l t Hread Hat.
  - injection Hat as <-. by exists fuel, t.
  - cbn [heap_at] in Hat.
    destruct (lookup_key h l key) as [[s| |l']|] eqn:Hget; try done.
    destruct (reify_get fuel h l t key (VDict l') Hread Hget)
      as (fuel1 & t1 & Hread1 & Hfield).
    cbn [foldl]. rewrite Hfield. by eapply IH.
Qed.

Lemma read_root_reify (h : heap) (config : list (string * tree)) :
  read_root h = Ok config → reify (length h) h (VDict root) = Some (TDict config).
Proof.
  unfold read_root. destruct (reify (length h) h (VDict root)) as [[s|d|l]|]; try done.
  by intros [= ->].
Qed.

End LastWrite.

(** C7, as stated, fails when the mapping the two lines write is no longer
    in the tree at the end, or when a third line writes the key again.  In
    the lines [a:], [  k: 1], [  k: 2], [a: 5] the second and the third line
    write the key [k] of the same mapping, at the same indentation; the
    fourth binds [a] at the root to a string, and the parsed tree has no
    [k] to look up.  In [k: 1], [k: 2], [k: 3] the first two lines write the
    same key of the root, and the lookup returns the value of the third. *)
Lemma overwritten_mapping_dropped :
  parse_lines ["a:"]
  = Ok (State [[("a", VDict 1%nat)]; []] [(0, 1%nat); (-1, root)])
  ∧ line_target (State [[("a", VDict 1%nat)]; []] [(0, 1%nat); (-1, root)])
      "  k: 1" = Some (1%nat, "k")
  ∧ parse_lines ["a:"; "  k: 1"]
    = Ok (State [[("a", VDict 1%nat)]; [("k", VStr "1")]] [(0, 1%nat); (-1, root)])
  ∧ line_target
      (State [[("a", VDict 1%nat)]; [("k", VStr "1")]] [(0, 1%nat); (-1, root)])
      "  k: 2" = Some (1%nat, "k")
  ∧ line_indent "  k: 1" = line_indent "  k: 2"
  ∧ parse_yaml ["a:"; "  k: 1"; "  k: 2"; "a: 5"] = Ok [("a", TStr "5")]
  ∧ at_path [("a", TStr "5")] ["a"; "k"] = None
  ∧ dict_get [("a", TStr "5")] "k" = None
  ∧ line_target init "k: 1" = Some (root, "k")
  ∧ parse_lines ["k: 1"] = Ok (State [[("k", VStr "1")]] [(-1, root)])
  ∧ line_target (State [[("k", VStr "1")]] [(-1, root)]) "k: 2" = Some (root, "k")
  ∧ line_indent "k: 1" = line_indent "k: 2"
  ∧ parse_yaml ["k: 1"; "k: 2"; "k: 3"] = Ok [("k", TStr "3")]
  ∧ dict_get [("k", TStr "3")] "k" ≠ Some (TStr "2").
Proof. by vm_compute. Qed.

(** C7, amended.  Let two lines of the input write the same key of the same
    mapping, at the same indentation, and let no line after the second write
    that key of that mapping.  Then the second line's value replaces the
    first line's under the key, and the parse ends with the second line's
    value there.  When the mapping is still in the tree at the end, reached
    from the root along a path of keys, the lookup of the path and then the
    key in the parsed tree returns the tree of the second line's value, the
    string itself when it is a string; the root is the case of the empty
    path. *)
Theorem last_write_wins (pre mid post : list string) (first second : string)
    (st1 st2 st3 : state) (p : loc) (key : string) :
  parse_lines pre = Ok st1 →
  line_target st1 first = Some (p, key) →
  parse_lines (pre ++ first :: mid) = Ok st2 →
  line_target st2 second = Some (p, key) →
  line_indent first = line_indent second →
  parse_lines (pre ++ first :: mid ++ [second]) = Ok st3 →
  untouched p key st3 post →
  ∃ st st1',
    parse_lines (pre ++ [first]) = Ok st1'
    ∧ lookup_key (st_heap st1') p key = Some (written st1 first)
    ∧ lookup_key (st_heap st3) p key = Some (written st2 second)
    ∧ parse_lines (pre ++ first :: mid ++ second :: post) = Ok st
    ∧ lookup_key (st_heap st) p key = Some (written st2 second)
    ∧ (p = root →
       ∃ config fuel t,
         parse_yaml (pre ++ first :: mid ++ second :: post) = Ok config
         ∧ reify fuel (st_heap st) (written st2 second) = Some t
         ∧ dict_get config key = Some t)
    ∧ (∀ path,
         heap_at (st_heap st) root path = Some p →
         ∃ config fuel t,
           parse_yaml (pre ++ first :: mid ++ second :: post) = Ok config
           ∧ reify fuel (st_heap st) (written st2 second) = Some t
           ∧ at_path config (path ++ [key]) = Some t
           ∧ (∀ s, written st2 second = VStr s → t = TStr s)).
Proof.
  intros Hst1 Ht1 Hst2 Ht2 _ Hst3 Hun.
  assert (wf st1) as Hwf1.
  { destruct (parse_lines_wf pre) as (s & Hs & Hwf). congruence. }
  assert (wf st2) as Hwf2.
  { destruct (parse_lines_wf (pre ++ first :: mid)) as (s & Hs & Hwf). congruence. }
  assert (wf st3) as Hwf3.
  { destruct (parse_lines_wf (pre ++ first :: mid ++ [second])) as (s & Hs & Hwf).
    congruence. }
  assert (skipped first = false) as Hskip1.
  { unfold line_target in Ht1. by destruct (skipped first). }
  assert (skipped second = false) as Hskip2.
  { unfold line_target in Ht2. by destruct (skipped second). }
  destruct (parse_line_writes st1 first Hwf1 Hskip1)
    as (st1' & p1 & Ht1' & Hline1 & Hget1).
  rewrite Ht1 in Ht1'. injection Ht1' as <- Hkey1. rewrite <- Hkey1 in Hget1.
  destruct (parse_line_writes st2 second Hwf2 Hskip2)
    as (st3' & p2 & Ht2' & Hline2 & Hget2).
  rewrite Ht2 in Ht2'. injection Ht2' as <- Hkey2. rewrite <- Hkey2 in Hget2.
  assert (st3' = st3) as ->.
  { replace (pre ++ first :: mid ++ [second])
      with ((pre ++ first :: mid) ++ [second]) in Hst3
      by (by rewrite <- app_assoc).
    rewrite (parse_lines_snoc _ _ _ Hst2) in Hst3. congruence. }
  assert (p < length (st_heap st3))%nat as Hp.
  { unfold lookup_key in Hget2.
    destruct (st_heap st3 !! p) as [d|] eqn:Hd; [|done]. by eapply lookup_lt_Some. }
  destruct (untouched_keeps p key post st3 Hwf3 Hp Hun) as (st & Hst & Hwf & Hsame).
  assert (parse_lines (pre ++ first :: mid ++ second :: post) = Ok st) as Hall.
  { replace (pre ++ first :: mid ++ second :: post)
      with ((pre ++ first :: mid ++ [second]) ++ post)
      by (rewrite <- !app_assoc; cbn; by rewrite <- app_assoc).
    unfold parse_lines in *. by rewrite for_each_app, Hst3. }
  destruct (read_root_ok st Hwf) as [config Hconfig].
  assert (parse_yaml (pre ++ first :: mid ++ second :: post) = Ok config) as Hparse.
  { unfold parse_yaml. by rewrite Hall. }
  exists st, st1'.
  split; [by rewrite (parse_lines_snoc _ _ _ Hst1)|].
  split; [done|]. split; [done|]. split; [done|].
  split; [by rewrite Hsame|]. split.
  - intros ->.
    destruct (read_root_get (st_heap st) config key (written st2 second) Hconfig)
      as (fuel & t & Ht & Hentry); [by rewrite Hsame|].
    by exists config, fuel, t.
  - intros path Hat.
    destruct (reify_path path _ _ _ _ _ (read_root_reify _ _ Hconfig) Hat)
      as (fuel1 & t1 & Hread1 & Hfold).
    destruct (reify_get fuel1 (st_heap st) p t1 key (written st2 second) Hread1)
      as (fuel & t & Ht & Hfield); [by rewrite Hsame|].
    exists config, fuel, t. split; [done|]. split; [done|]. split.
    + unfold at_path. by rewrite foldl_app, Hfold.
    + intros s Hs. rewrite Hs in Ht. destruct fuel; cbn in Ht; by injection Ht as <-.
Qed.

Lemma last_write_wins_witness :
  ∃ st config,
    parse_lines ["a:"; "  k: 1"; "  j: x"; "  k: 2"; "  m: y"] = Ok st
    ∧ lookup_key (st_heap st) 1%nat "k" = Some (VStr "2")
    ∧ parse_yaml ["a:"; "  k: 1"; "  j: x"; "  k: 2"; "  m: y"] = Ok config
    ∧ at_path config ["a"; "k"] = Some (TStr "2").
Proof.
  destruct (last_write_wins ["a:"] ["  j: x"] ["  m: y"] "  k: 1" "  k: 2"
              (State [[("a", VDict 1%nat)]; []] [(0, 1%nat); (-1, root)])
              (State [[("a", VDict 1%nat)]; [("k", VStr "1"); ("j", VStr "x")]]
                 [(0, 1%nat); (-1, root)])
              (State [[("a", VDict 1%nat)]; [("k", VStr "2"); ("j", VStr "x")]]
                 [(0, 1%nat); (-1, root)])
              1%nat "k")
    as (st & st1' & _ & _ & _ & Hst & Hget & _ & Hpath).
  - reflexivity.
  - reflexivity.
  - reflexivity.
  - reflexivity.
  - reflexivity.
  - reflexivity.
  - cbn. split; [discriminate|]. intros st' _. exact I.
  - destruct (Hpath ["a"]) as (config & fuel & t & Hparse & _ & Hat & Hstr).
    + injection Hst as <-. reflexivity.
    + exists st, config. rewrite <- (Hstr "2" eq_refl).
      split; [exact Hst|]. split; [exact Hget|]. split; [exact Hparse|exact Hat].
Defined.

(** Last write wins on the lines of a small file, at the root and below. *)
Example last_write_examples :
  parse_yaml ["k: 1"; "k: 2"] = Ok [("k", TStr "2")]
  ∧ parse_yaml ["a: 1"; "b: 2"; "a: 3"] = Ok [("a", TStr "3"); ("b", TStr "2")]
  ∧ parse_yaml ["a:"; "  k: 1"; "  k: 2"] = Ok [("a", TDict [("k", TStr "2")])]
  ∧ parse_yaml ["a:"; "  k: 1"; "a: 2"] = Ok [("a", TStr "2")].
Proof. by vm_compute. Qed.

(** ** The report *)

Section Report.

Lemma get_config (config : list (string * tree)) (key : string) :
  py_get (Some (TDict config)) key empty_dict
  = Ok (or_empty (dict_get config key)).
Proof. reflexivity. Qed.

Lemma get_guarded (x : pyval) (key : string) :
  (if isinstance_dict x then py_get x key None else Ok None)
  = Ok (get_field x key).
Proof.
  destruct x as [[s|d|l]|]; try reflexivity.
  cbn. by destruct (dict_get d key).
Qed.

Lemma get_narrow (x : pyval) (key : string) :
  (if isinstance_dict x
   then y ← py_get x key empty_dict;
        Ok (if isinstance_dict y then y else empty_dict)
   else Ok empty_dict)
  = Ok (narrow (get_field x key)).
Proof.
  destruct x as [[s|d|l]|]; try reflexivity.
  cbn. by destruct (dict_get d key).
Qed.

Lemma get_field_or_empty (x : pyval) (key : string) :
  get_field (or_empty x) key = get_field x key.
Proof. by destruct x as [[s|d|l]|]. Qed.

Lemma get_field_narrow (x : pyval) (key : string) :
  get_field (narrow x) key = get_field x key.
Proof. by destruct x as [[s|d|l]|]. Qed.

Lemma truthy_and (a b : pyval) : truthy (py_and a b) = truthy a && truthy b.
Proof. unfold py_and. by destruct (truthy a) eqn:E. Qed.

Lemma exec_lift_ok {A B : Type} (a : A) (f : A → run B) (out : list string) :
  exec (lift (Ok a) ≫= f) out = exec (f a) out.
Proof. reflexivity. Qed.

Lemma exec_lift_ok2 {A B C : Type} (a : A) (f : A → run B) (k : B → run C)
    (out : list string) :
  exec ((lift (Ok a) ≫= f) ≫= k) out = exec (f a ≫= k) out.
Proof. reflexivity. Qed.

(** A row with one field, followed by the rest of the report. *)
Lemma exec_row (c : bool) (o : outcome string) (g : string → string)
    (k : run unit) (rows : list row) (out : list string) :
  (∀ out', exec k out' = emit rows out') →
  exec ((if c then text ← lift o; print (g text) else mret tt) ;; k) out
  = emit ((c, text ← o; Ok (g text)) :: rows) out.
Proof. intros Hk. destruct c, o as [text|e]; cbn; by rewrite ?Hk. Qed.

(** A row with two fields, followed by the rest of the report. *)
Lemma exec_row2 (c : bool) (o1 o2 : outcome string) (g : string → string → string)
    (k : run unit) (rows : list row) (out : list string) :
  (∀ out', exec k out' = emit rows out') →
  exec ((if c then a ← lift o1; b ← lift o2; print (g a b) else mret tt) ;; k) out
  = emit ((c, a ← o1; b ← o2; Ok (g a b)) :: rows) out.
Proof.
  intros Hk. destruct c, o1 as [a|e1]; cbn; rewrite ?Hk; try done.
  destruct o2 as [b|e2]; cbn; by rewrite ?Hk.
Qed.

(** The last row. *)
Lemma exec_row2_last (c : bool) (o1 o2 : outcome string)
    (g : string → string → string) (out : list string) :
  exec (if c then a ← lift o1; b ← lift o2; print (g a b) else mret tt) out
  = emit [(c, a ← o1; b ← o2; Ok (g a b))] out.
Proof.
  destruct c, o1 as [a|e1]; cbn; try done. by destruct o2 as [b|e2].
Qed.

(** The postgres row: its two lookups are guarded by one test. *)
Lemma get_pair (limit : nat) (postgres : pyval) (k : run unit) (out : list string) :
  exec ((if isinstance_dict (or_empty postgres) then
           username ← lift (py_get (or_empty postgres) "username" None);
           password ← lift (py_get (or_empty postgres) "password" None);
           if truthy (py_and username password) then
             user ← lift (py_str limit username);
             pass ← lift (py_str limit password);
             print ("Postgres credentials: " +:+ user +:+ "/" +:+ pass)
           else mret tt
         else mret tt) ;; k) out
  = exec ((if truthy (get_field postgres "username")
              && truthy (get_field postgres "password") then
             user ← lift (py_str limit (get_field postgres "username"));
             pass ← lift (py_str limit (get_field postgres "password"));
             print ("Postgres credentials: " +:+ user +:+ "/" +:+ pass)
           else mret tt) ;; k) out.
Proof.
  destruct postgres as [[s|d|l]|]; try reflexivity.
  cbn [or_empty isinstance_dict get_field py_get].
  assert (∀ key, match dict_get d key with Some w => Some w | None => None end
                 = dict_get d key) as Hget by (intros key; by destruct (dict_get d key)).
  rewrite !Hget.
  rewrite exec_lift_ok2. cbn beta. rewrite exec_lift_ok2. cbn beta.
  by rewrite truthy_and.
Qed.

Ltac next_bind :=
  rewrite ?exec_lift_ok; cbn beta zeta;
  change (Some (TDict [])) with empty_dict.

(** [report] prints the rows of the table. *)
Lemma report_ok (limit : nat) (config : list (string * tree)) (out : list string) :
  exec (report limit config) out = emit (report_rows limit config) out.
Proof.
  unfold report, report_rows, at_path. cbn [foldl get_field].
  next_bind. rewrite !get_config. next_bind.
  rewrite get_guarded, get_field_or_empty. next_bind.
  rewrite get_narrow, get_field_or_empty. next_bind.
  rewrite get_narrow, get_field_or_empty. next_bind.
  apply (exec_row _ _ (λ text, "Ingress URL: http://" +:+ text +:+ ":8080")).
  intros out1. rewrite get_pair.
  apply (exec_row2 _ _ _
           (λ user pass, "Postgres credentials: " +:+ user +:+ "/" +:+ pass)).
  intros out2. rewrite !get_guarded, !get_field_narrow. next_bind.
  apply (exec_row _ _ (λ text, "SMTP URL: " +:+ text)).
  intros out3. next_bind.
  apply (exec_row _ _ (λ text, "JWT secret: " +:+ text)).
  intros out4. next_bind. next_bind.
  rewrite truthy_and.
  apply (exec_row2_last _ _ _
           (λ user pass, "Grafana credentials: " +:+ user +:+ "/" +:+ pass)).
Qed.

(** *** The recursion limit *)

Lemma depth_pos (t : tree) : (1 <= depth t)%nat.
Proof. destruct t; cbn; lia. Qed.

Lemma foldr_max_le {A : Type} (h : A → nat) (l : list A) (n : nat) :
  (foldr (λ x acc, Nat.max (h x) acc) 0%nat l <=? n)%nat
  = forallb (λ x, (h x <=? n)%nat) l.
Proof.
  induction l as [|x l IH]; [done|]. cbn [foldr forallb]. rewrite <- IH.
  destruct (Nat.leb_spec (h x) n), (Nat.leb_spec (foldr (λ x acc, Nat.max (h x) acc) 0%nat l) n),
    (Nat.leb_spec (Nat.max (h x) (foldr (λ x acc, Nat.max (h x) acc) 0%nat l)) n);
    cbn; try done; lia.
Qed.

Lemma mapM_outcome {A B : Type} (f : A → outcome B) (g : A → B) (ok : A → bool)
    (e : exn) (l : list A) :
  (∀ x, f x = if ok x then Ok (g x) else Raise e) →
  mapM f l = if forallb ok l then Ok (map g l) else Raise e.
Proof.
  intros Hf. induction l as [|x l IH]; [done|].
  change (mapM f (x :: l)) with (y ← f x; k ← mapM f l; mret (y :: k)).
  cbn [forallb map]. rewrite Hf, IH.
  destruct (ok x); [|done]. by destruct (forallb ok l).
Qed.

(** [repr] gives its text when the value nests no deeper than the limit, and
    raises [RecursionError] when it does. *)
Lemma repr_tree_fits (limit : nat) (t : tree) :
  repr_tree limit t
  = if (depth t <=? limit)%nat then Ok (repr_text t) else Raise RecursionError.
Proof.
  revert t. induction limit as [|limit IH]; intros t.
  { pose proof (depth_pos t). cbn [repr_tree].
    destruct (Nat.leb_spec (depth t) 0); [lia|done]. }
  destruct t as [s|d|l]; [done| |].
  - cbn [repr_tree depth]. change (S ?a <=? S ?b)%nat with (a <=? b)%nat.
    rewrite foldr_max_le.
    rewrite (mapM_outcome _ (λ kv : string * tree, repr kv.1 +:+ ": " +:+ repr_text kv.2)
               (λ kv : string * tree, (depth kv.2 <=? limit)%nat) RecursionError).
    + by destruct (forallb _ d).
    + intros [k v]. cbn [fst snd]. rewrite (IH (TStr k)), (IH v).
      pose proof (depth_pos v). cbn [depth].
      destruct (Nat.leb_spec 1 limit), (Nat.leb_spec (depth v) limit);
        try done; lia.
  - cbn [repr_tree depth]. change (S ?a <=? S ?b)%nat with (a <=? b)%nat.
    rewrite foldr_max_le.
    rewrite (mapM_outcome _ repr_text (λ x, (depth x <=? limit)%nat) RecursionError).
    + by destruct (forallb _ l).
    + intros x. apply IH.
Qed.

Lemma py_str_fits (limit : nat) (x : pyval) :
  py_str limit x = if fits limit x then Ok (py_text x) else Raise RecursionError.
Proof. destruct x as [[s|d|l]|]; try done; apply repr_tree_fits. Qed.

(** Formatting raises nothing but [RecursionError]. *)
Lemma py_str_raises (limit : nat) (x : pyval) (e : exn) :
  py_str limit x = Raise e → e = RecursionError.
Proof. rewrite py_str_fits. destruct (fits limit x); [done|]. by intros [= <-]. Qed.

(** *** The rows *)

(** [emit] ends well, or with the exception of one of its rows. *)
Lemma emit_status (rows : list row) (out : list string) :
  (emit rows out).2 = Ok tt
  ∨ ∃ c e, (c, Raise e) ∈ rows ∧ (emit rows out).2 = Raise e.
Proof.
  revert out. induction rows as [|[c o] rows IH]; intros out; [by left|].
  cbn [emit]. destruct c.
  - destruct o as [line|e].
    + destruct (IH (out ++ [line])) as [?|(c & e & Hin & ?)]; [by left|].
      right. exists c, e. split; [by right|done].
    + right. exists true, e. split; [by left|done].
  - destruct (IH out) as [?|(c & e & Hin & ?)]; [by left|].
    right. exists c, e. split; [by right|done].
Qed.

(** The line of a row, or [d] when formatting raises. *)
Definition row_line (d : string) (r : row) : string :=
  match r.2 with
  | Ok line => line
  | Raise _ => d
  end.

(** [emit] prints lines of its rows, in their order, after what was
    printed before. *)
Lemma emit_sublist (rows : list row) (ds : list string) (out : list string) :
  length ds = length rows →
  ∃ l, (emit rows out).1 = out ++ l ∧ l `sublist_of` zip_with row_line ds rows.
Proof.
  revert ds out. induction rows as [|[c o] rows IH]; intros ds out Hlen.
  { exists []. cbn [emit fst]. rewrite app_nil_r. split; [done|apply sublist_nil_l]. }
  destruct ds as [|d ds]; [done|]. injection Hlen as Hlen.
  cbn [emit zip_with]. destruct c.
  - destruct o as [line|e].
    + destruct (IH ds (out ++ [line]) Hlen) as (l & Hl & Hsub).
      exists (line :: l). rewrite Hl, <- app_assoc. split; [done|].
      by apply sublist_skip.
    + exists []. rewrite app_nil_r. split; [done|]. apply sublist_nil_l.
  - destruct (IH ds out Hlen) as (l & Hl & Hsub).
    exists l. split; [done|]. by apply sublist_cons.
Qed.

Lemma truthy_false (x : pyval) :
  truthy x = false
  ↔ x = None ∨ x = Some (TStr "") ∨ x = Some (TDict []) ∨ x = Some (TList []).
Proof.
  split.
  - destruct x as [[s|d|l]|]; cbn; [| | |by left].
    + destruct s; [by right; left|done].
    + destruct d; [by right; right; left|done].
    + destruct l; [by right; right; right|done].
  - by intros [->|[->|[->| ->]]].
Qed.

(** A row of the report raises nothing but [RecursionError]. *)
Lemma report_rows_raise (limit : nat) (config : list (string * tree)) (c : bool)
    (e : exn) :
  (c, Raise e) ∈ report_rows limit config → e = RecursionError.
Proof.
  assert (∀ (o : outcome string) (g : string → string),
            (text ← o; Ok (g text)) = Raise e →
            (∀ e', o = Raise e' → e' = RecursionError) → e = RecursionError) as H1.
  { intros [text|e'] g; cbn; [done|]. intros [= <-] He. by apply He. }
  assert (∀ (o1 o2 : outcome string) (g : string → string → string),
            (a ← o1; b ← o2; Ok (g a b)) = Raise e →
            (∀ e', o1 = Raise e' → e' = RecursionError) →
            (∀ e', o2 = Raise e' → e' = RecursionError) → e = RecursionError) as H2.
  { intros [a|e1] o2 g; cbn.
    - destruct o2 as [b|e2]; cbn; [done|]. intros [= <-] _ He. by apply He.
    - intros [= <-] He _. by apply He. }
  unfold report_rows. cbv zeta. rewrite !elem_of_cons, elem_of_nil.
  intros [[= _ Hr]|[[= _ Hr]|[[= _ Hr]|[[= _ Hr]|[[= _ Hr]|[]]]]]]; symmetry in Hr.
  - eapply (H1 _ _ Hr), py_str_raises.
  - eapply (H2 _ _ _ Hr); apply py_str_raises.
  - eapply (H1 _ _ Hr), py_str_raises.
  - eapply (H1 _ _ Hr), py_str_raises.
  - eapply (H2 _ _ _ Hr); apply py_str_raises.
Qed.

(** When the seven fields can be formatted, the report prints the lines of
    the table and ends well. *)
Lemma report_rows_fit (limit : nat) (config : list (string * tree)) :
  Forall (λ path, fits limit (at_path config path) = true) leaf_paths →
  emit (report_rows limit config) [] = (report_lines config, Ok tt).
Proof.
  unfold leaf_paths. rewrite !Forall_cons_iff.
  intros (H1 & H2 & H3 & H4 & H5 & H6 & H7 & _).
  unfold report_rows, report_lines. cbv zeta.
  rewrite !py_str_fits, H1, H2, H3, H4, H5, H6, H7.
  cbn [mbind outcome_bind].
  destruct (truthy (at_path config ["ingress"; "host"])),
    (truthy (at_path config ["postgres"; "username"])
     && truthy (at_path config ["postgres"; "password"])),
    (truthy (at_path config ["secrets"; "data"; "SMTP_URL"])),
    (truthy (at_path config ["secrets"; "data"; "JWT_SECRET"])),
    (truthy (at_path config ["observability"; "grafana"; "adminUser"])
     && truthy (at_path config ["observability"; "grafana"; "adminPassword"]));
    reflexivity.
Qed.

End Report.

(** C1, as stated, fails when a leaf is a mapping that is not empty: for
    the lines [ingress:], [host:] and [a: b], each nested under the one
    before, the value at [ingress.host] is a mapping and no string, and the
    ingress line is printed all the same, with the mapping shown as Python
    shows a dictionary, whenever the interpreter has the two levels that
    showing it takes. *)
Lemma mapping_leaf_printed :
  parse_yaml ["ingress:"; "  host:"; "    a: b"]
  = Ok [("ingress", TDict [("host", TDict [("a", TStr "b")])])]
  ∧ at_path [("ingress", TDict [("host", TDict [("a", TStr "b")])])]
      ["ingress"; "host"]
    = Some (TDict [("a", TStr "b")])
  ∧ exec (report 1000 [("ingress", TDict [("host", TDict [("a", TStr "b")])])]) []
    = (["Ingress URL: http://{'a': 'b'}:8080"], Ok tt)
  ∧ exec (main 1000 (Text (file_text ["ingress:"; "  host:"; "    a: b"]))) []
    = (["Ingress URL: http://{'a': 'b'}:8080"], Ok tt)
  ∧ ∀ limit,
      exec (main (S (S limit)) (Text (file_text ["ingress:"; "  host:"; "    a: b"]))) []
      = (["Ingress URL: http://{'a': 'b'}:8080"], Ok tt).
Proof. repeat split; by vm_compute. Qed.

(** C1, amended.  For every root mapping, and so for every parsed tree,
    and whatever depth of nested calls the interpreter allows, the report
    goes through the five rows of the table in order: a row whose leaf field
    or fields are not all true values (an absent value, an empty string, an
    empty mapping and an empty list are not) is passed over in silence; a
    row whose fields are true values is printed, a string leaf as it is and
    a mapping leaf in the form Python shows a dictionary in; the one
    exception the report can raise is [RecursionError], at the first such
    row with a leaf that nests deeper than the interpreter allows, after the
    lines printed before it.  A leaf is absent when a key on its path is
    missing or a node on the way is not a mapping.  When every field can be
    formatted, all string leaves among them, the report prints exactly the
    lines of the table and raises nothing. *)
Theorem report_prints_true_leaves (limit : nat) (config : list (string * tree)) :
  (∀ out, exec (report limit config) out = emit (report_rows limit config) out)
  ∧ (∀ text, ∃ parsed,
       parse_yaml (splitlines text) = Ok parsed
       ∧ exec (main limit (Text text)) [] = emit (report_rows limit parsed) [])
  ∧ (∀ x, py_str limit x
          = if fits limit x then Ok (py_text x) else Raise RecursionError)
  ∧ (∀ out e, exec (report limit config) [] = (out, Raise e) → e = RecursionError)
  ∧ (Forall (λ path, fits limit (at_path config path) = true) leaf_paths →
     exec (report limit config) [] = (report_lines config, Ok tt))
  ∧ (∀ x, truthy x = false
          ↔ x = None ∨ x = Some (TStr "") ∨ x = Some (TDict [])
            ∨ x = Some (TList []))
  ∧ (∀ key, get_field None key = None)
  ∧ (∀ s key, get_field (Some (TStr s)) key = None)
  ∧ (∀ l key, get_field (Some (TList l)) key = None)
  ∧ (∀ d key, dict_get d key = None → get_field (Some (TDict d)) key = None)
  ∧ (∀ path key, at_path config path = None → at_path config (path ++ [key]) = None)
  ∧ (∀ s, fits limit (Some (TStr s)) = true ∧ py_text (Some (TStr s)) = s)
  ∧ (∀ kv d, py_text (Some (TDict (kv :: d))) = repr_text (TDict (kv :: d))).
Proof.
  split; [apply report_ok|]. split.
  { intros text.
    destruct (parse_lines_wf (splitlines text)) as (st & Hst & Hwf).
    destruct (read_root_ok st Hwf) as [parsed Hparsed].
    exists parsed.
    assert (parse_yaml (splitlines text) = Ok parsed) as Hparse
      by (unfold parse_yaml; by rewrite Hst).
    split; [done|]. unfold main. cbv zeta. rewrite Hparse, exec_lift_ok.
    apply report_ok. }
  split; [apply py_str_fits|]. split.
  { intros out e. rewrite report_ok. intros Hemit.
    destruct (emit_status (report_rows limit config) [])
      as [Hok|(c & e' & Hin & Hraise)]; rewrite Hemit in *; [done|].
    injection Hraise as ->. by eapply report_rows_raise. }
  split.
  { intros Hfit. rewrite report_ok. by apply report_rows_fit. }
  split; [apply truthy_false|].
  repeat split; try done.
  intros path key Hpath. unfold at_path in *. by rewrite foldl_snoc, Hpath.
Qed.

(** The five lines on a tree that has every field; trees whose fields are
    missing, of the wrong kind or empty; and a mapping leaf nested three
    deep where the interpreter allows two levels: the line before it is
    printed, then [RecursionError] is raised, on a tree as on the text of a
    file; with three levels the line is printed. *)
Example report_examples (limit : nat) :
  exec (report limit
          [("ingress", TDict [("host", TStr "h")]);
           ("postgres", TDict [("username", TStr "u"); ("password", TStr "p")]);
           ("secrets", TDict [("data", TDict [("SMTP_URL", TStr "s");
                                              ("JWT_SECRET", TStr "j")])]);
           ("observability",
            TDict [("grafana", TDict [("adminUser", TStr "g");
                                      ("adminPassword", TStr "w")])])]) []
  = (["Ingress URL: http://h:8080"; "Postgres credentials: u/p";
      "SMTP URL: s"; "JWT secret: j"; "Grafana credentials: g/w"], Ok tt)
  ∧ exec (report limit []) [] = ([], Ok tt)
  ∧ exec (report limit
            [("ingress", TStr "x"); ("postgres", TList []);
             ("secrets", TDict [("data", TStr "y")]);
             ("observability",
              TDict [("grafana", TDict [("adminUser", TStr "g")])])]) []
    = ([], Ok tt)
  ∧ exec (report limit
            [("ingress", TDict [("host", TStr "")]);
             ("postgres", TDict [("username", TStr "u"); ("password", TDict [])])])
      []
    = ([], Ok tt)
  ∧ exec (report 2
            [("ingress", TDict [("host", TStr "h")]);
             ("secrets",
              TDict [("data",
                      TDict [("SMTP_URL", TDict [("a", TDict [("b", TStr "c")])])])])])
      []
    = (["Ingress URL: http://h:8080"], Raise RecursionError)
  ∧ exec (main 2 (Text (file_text ["postgres:"; "  username: u"; "  password: p";
                                   "secrets:"; "  data:"; "    SMTP_URL:";
                                   "      a:"; "        b: c"]))) []
    = (["Postgres credentials: u/p"], Raise RecursionError)
  ∧ exec (main 3 (Text (file_text ["postgres:"; "  username: u"; "  password: p";
                                   "secrets:"; "  data:"; "    SMTP_URL:";
                                   "      a:"; "        b: c"]))) []
    = (["Postgres credentials: u/p"; "SMTP URL: {'a': {'b': 'c'}}"], Ok tt).
Proof. repeat split; by vm_compute. Qed.

(** C8. The eight lines of the scenario parse to the tree of the three
    mappings, and the report on it, like [main] on the text of the eight
    lines, prints the ingress line, the postgres line and the SMTP line, in
    that order, and nothing else, and raises nothing, whatever depth of
    nested calls the interpreter allows. *)
Theorem end_to_end (limit : nat) :
  let lines :=
    ["ingress:"; "  host: dev.local"; "postgres:"; "  username: admin";
     "  password: s3cr3t"; "secrets:"; "  data:";
     "    SMTP_URL: smtp://localhost:1025"] in
  let config :=
    [("ingress", TDict [("host", TStr "dev.local")]);
     ("postgres", TDict [("username", TStr "admin"); ("password", TStr "s3cr3t")]);
     ("secrets", TDict [("data", TDict [("SMTP_URL", TStr "smtp://localhost:1025")])])] in
  let output :=
    ["Ingress URL: http://dev.local:8080"; "Postgres credentials: admin/s3cr3t";
     "SMTP URL: smtp://localhost:1025"] in
  parse_yaml lines = Ok config
  ∧ exec (report limit config) [] = (output, Ok tt)
  ∧ splitlines (file_text lines) = lines
  ∧ exec (main limit (Text (file_text lines))) [] = (output, Ok tt)
  ∧ exec (main limit (Text (file_text lines +:+ String LF ""))) [] = (output, Ok tt).
Proof. repeat split; by vm_compute. Qed.

(** C9. When the file is not there, [main] prints no line and ends without
    an exception: it returns at once, before any parse or lookup.  Any other
    failure of the read is raised. *)
Theorem missing_source (limit : nat) :
  exec (main limit Missing) [] = ([], Ok tt)
  ∧ exec (main limit Unreadable) [] = ([], Raise OSError).
Proof. by split. Qed.


(** * Further properties of [parse_yaml] and [main] *)

(** ** Lines that are passed over *)

Section Skipped.

Lemma parse_line_skipped (st : state) (raw_line : string) :
  skipped raw_line = true → parse_line st raw_line = Ok st.
Proof. intros Hskip. unfold parse_line. by rewrite Hskip. Qed.

Lemma for_each_retained (lines : list string) (st : state) :
  for_each parse_line st lines
  = for_each parse_line st (filter (λ l, skipped l = false) lines).
Proof.
  revert st. induction lines as [|raw_line lines IH]; intros st; [done|].
  destruct (skipped raw_line) eqn:Hskip.
  - rewrite filter_cons_False by (by rewrite Hskip).
    cbn [for_each]. rewrite (parse_line_skipped _ _ Hskip). cbn. apply IH.
  - rewrite filter_cons_True by done.
    cbn [for_each]. destruct (parse_line st raw_line) as [st'|e]; cbn; [|done].
    apply IH.
Qed.

(** What [skipped] decides: the line is white space only, or its first
    character that is not white space is [#]. *)
Lemma skipped_blank_or_comment (raw_line : string) :
  skipped raw_line = true
  ↔ all_space raw_line = true
    ∨ ∃ lead rest, all_space lead = true ∧ raw_line = lead +:+ String "#" rest.
Proof.
  unfold skipped, line_stripped. cbv zeta. split.
  - intros H. destruct (strip_spec raw_line) as ((lead & trail & Hs & Hlead & Htrail) & _).
    apply orb_prop in H as [H|H].
    + left. apply String.eqb_eq in H. rewrite H, append_nil in Hs.
      by rewrite Hs, all_space_append, Hlead, Htrail.
    + right. apply startswith_char in H as [s' H].
      exists lead, (s' +:+ trail). split; [done|].
      by rewrite H, append_cons in Hs.
  - intros [H|(lead & rest & Hlead & ->)].
    + unfold strip. by rewrite (lstrip_all_space _ H).
    + unfold strip. rewrite (lstrip_lead _ _ Hlead).
      change (lstrip (String "#" rest)) with (String "#" rest).
      destruct (rstrip_head "#" rest eq_refl) as [r ->].
      apply orb_true_intro. right. apply startswith_char. by exists r.
Qed.

End Skipped.

(** X1. Blank lines and comment lines change nothing.  A line is passed over
    exactly when it is white space only, or its first character after the
    white space in front is [#]; such a line leaves the state of the parse
    as it is, whatever the state.  So the parse of any lines is the parse of
    the lines that are left when the blank and the comment lines are taken
    out, state and tree alike, and lines that are all blank or comments give
    the empty root mapping.  A [#] after other text does not make a
    comment. *)
Theorem blank_and_comment_lines_ignored (lines : list string) :
  parse_lines lines = parse_lines (filter (λ l, skipped l = false) lines)
  ∧ parse_yaml lines = parse_yaml (filter (λ l, skipped l = false) lines)
  ∧ (Forall (λ l, skipped l = true) lines → parse_yaml lines = Ok [])
  ∧ (∀ raw_line,
       skipped raw_line = true
       ↔ all_space raw_line = true
         ∨ ∃ lead rest, all_space lead = true ∧ raw_line = lead +:+ String "#" rest)
  ∧ (∀ st raw_line,
       all_space raw_line = true → parse_line st raw_line = Ok st)
  ∧ (∀ st lead rest,
       all_space lead = true → parse_line st (lead +:+ String "#" rest) = Ok st)
  ∧ (Forall (λ l, all_space l = true
                  ∨ ∃ lead rest, all_space lead = true ∧ l = lead +:+ String "#" rest)
       lines →
     parse_yaml lines = Ok [])
  ∧ skipped "" = true
  ∧ skipped ("  " +:+ String (ascii_of_N 9) " ") = true
  ∧ skipped "# note" = true
  ∧ skipped "   #a: 1" = true
  ∧ skipped "a: 1 # note" = false
  ∧ skipped "a#" = false
  ∧ skipped "x" = false
  ∧ parse_yaml ["# c"; ""; "   "; "a: 1"; "  # x: 2"; "b: 2 # kept"]
    = Ok [("a", TStr "1"); ("b", TStr "2 # kept")]
  ∧ parse_yaml ["a: 1"; "b: 2 # kept"]
    = Ok [("a", TStr "1"); ("b", TStr "2 # kept")].
Proof.
  assert (parse_lines lines
          = parse_lines (filter (λ l, skipped l = false) lines)) as Heq
    by apply for_each_retained.
  assert (Forall (λ l, skipped l = true) lines → parse_yaml lines = Ok []) as Hnone.
  { intros Hall. unfold parse_yaml. rewrite Heq.
    replace (filter (λ l, skipped l = false) lines) with (@nil string); [done|].
    symmetry. clear Heq. induction Hall as [|l lines Hl _ IH]; [done|].
    rewrite filter_cons_False by (by rewrite Hl). exact IH. }
  split; [done|]. split; [unfold parse_yaml; by rewrite Heq|].
  split; [done|]. split; [apply skipped_blank_or_comment|].
  split; [|split; [|split]].
  - intros st raw_line Hblank. apply parse_line_skipped.
    apply skipped_blank_or_comment. by left.
  - intros st lead rest Hlead. apply parse_line_skipped.
    apply skipped_blank_or_comment. right. by exists lead, rest.
  - intros Hall. apply Hnone.
    eapply Forall_impl; [|exact Hall].
    intros l Hl. by apply skipped_blank_or_comment.
  - by vm_compute.
Qed.

(** ** The split of a line *)

Section Split.

Lemma partition_pieces (c : ascii) (s : string) :
  ∃ before found after,
    partition (String c "") s = (before, found, after)
    ∧ s = before +:+ found +:+ after
    ∧ contains c before = false
    ∧ (found = String c "" ∨ found = "" ∧ after = "").
Proof.
  induction s as [|b s (before & found & after & Hp & Hs & Hc & Hf)].
  - exists "", "", "". by repeat split; [..|right].
  - cbn [partition]. rewrite prefix_char.
    destruct (Ascii.eqb c b) eqn:E.
    + apply Ascii.eqb_eq in E as <-. exists "", (String c ""), s.
      repeat split; [by left].
    + exists (String b before), found, after. rewrite Hp.
      split; [done|]. split; [by rewrite append_cons, <- Hs|].
      split; [|done]. cbn [contains]. by rewrite Ascii.eqb_sym, E.
Qed.

End Split.

(** X2. The split of a line loses nothing: the key, the separator found and
    the text after it, put together again, are the stripped line; the key
    holds no colon; the value is the stripped text after the separator; and
    when no colon is found the text after it is empty. *)
Theorem line_split_lossless (raw_line : string) :
  ∃ found after,
    partition ":" (line_stripped raw_line) = (line_key raw_line, found, after)
    ∧ line_stripped raw_line = line_key raw_line +:+ found +:+ after
    ∧ line_value raw_line = strip after
    ∧ contains ":" (line_key raw_line) = false
    ∧ (found = ":" ∨ found = "" ∧ after = "").
Proof.
  destruct (partition_pieces ":" (line_stripped raw_line))
    as (before & found & after & Hp & Hs & Hc & Hf).
  exists found, after. unfold line_key, line_value. rewrite Hp.
  by repeat split.
Qed.

(** ** The lines of a text *)

Section Lines.

Lemma splitlines_cons (c : ascii) (s : string) :
  splitlines (String c s)
  = if is_linebreak c then
      "" :: (if Ascii.eqb c CR
             then match s with
                  | String c' s'' =>
                      if Ascii.eqb c' LF then splitlines s'' else splitlines s
                  | "" => splitlines s
                  end
             else splitlines s)
    else
      match splitlines s with
      | [] => [String c ""]
      | l :: ls => String c l :: ls
      end.
Proof. reflexivity. Qed.

Lemma splitlines_plain (s : string) :
  has_linebreak s = false →
  splitlines s = match s with "" => [] | _ => [s] end.
Proof.
  induction s as [|c s IH]; [done|].
  cbn [has_linebreak]. intros H. apply orb_false_elim in H as [Hc Hs].
  cbn [splitlines]. rewrite Hc, (IH Hs). by destruct s.
Qed.

Lemma splitlines_line (p rest : string) :
  has_linebreak p = false →
  splitlines (p +:+ String LF rest) = p :: splitlines rest.
Proof.
  induction p as [|c p IH]; intros H.
  - by rewrite append_nil.
  - cbn [has_linebreak] in H. apply orb_false_elim in H as [Hc Hp].
    rewrite append_cons. cbn [splitlines]. by rewrite Hc, (IH Hp).
Qed.

Lemma splitlines_file_text (lines : list string) :
  Forall (λ l, has_linebreak l = false) lines →
  list.last lines ≠ Some "" →
  splitlines (file_text lines) = lines.
Proof.
  unfold file_text. induction 1 as [|p lines Hp Hall IH]; [done|].
  intros Hlast. destruct lines as [|q lines].
  - cbn [join]. rewrite (splitlines_plain _ Hp). destruct p; [done|done].
  - change (join (String LF "") (p :: q :: lines))
      with (p +:+ String LF "" +:+ join (String LF "") (q :: lines)).
    change (String LF "" +:+ join (String LF "") (q :: lines))
      with (String LF (join (String LF "") (q :: lines))).
    rewrite (splitlines_line _ _ Hp). f_equal. by apply IH.
Qed.

(** No line of [splitlines] holds a line boundary. *)
Lemma splitlines_no_linebreak (s : string) :
  Forall (λ l, has_linebreak l = false) (splitlines s)
  ∧ ∀ c, Forall (λ l, has_linebreak l = false) (splitlines (String c s)).
Proof.
  induction s as [|a s [IH1 IH2]].
  - split; [constructor|]. intros c. cbn [splitlines].
    destruct (is_linebreak c) eqn:Hc.
    + destruct (Ascii.eqb c CR); (constructor; [done|constructor]).
    + constructor; [|constructor]. cbn. by rewrite Hc.
  - split; [apply IH2|]. intros c.
    rewrite (splitlines_cons c). destruct (is_linebreak c) eqn:Hc.
    + constructor; [done|].
      destruct (Ascii.eqb c CR); [|apply IH2].
      destruct (Ascii.eqb a LF); [apply IH1|apply IH2].
    + pose proof (IH2 a) as Hrest.
      destruct (splitlines (String a s)) as [|l ls].
      * constructor; [|constructor]. cbn. by rewrite Hc.
      * apply Forall_cons_iff in Hrest as [Hl Hls].
        constructor; [|done]. cbn. by rewrite Hc.
Qed.

(** A line feed at the end of a text adds no line, or one empty line. *)
Lemma splitlines_final_newline (s : string) :
  (splitlines (s +:+ String LF "") = splitlines s
   ∨ splitlines (s +:+ String LF "") = splitlines s ++ [""])
  ∧ ∀ c, splitlines (String c s +:+ String LF "") = splitlines (String c s)
         ∨ splitlines (String c s +:+ String LF "")
           = splitlines (String c s) ++ [""].
Proof.
  induction s as [|a s [IH1 IH2]].
  - split; [by right|]. intros c. rewrite append_cons, append_nil.
    cbn [splitlines]. destruct (is_linebreak c) eqn:Hc.
    + destruct (Ascii.eqb c CR); [by left|by right].
    + by left.
  - split; [apply IH2|]. intros c.
    rewrite (append_cons c), !(splitlines_cons c).
    destruct (is_linebreak c) eqn:Hc.
    + assert (∀ x y : list string,
                x = y ∨ x = y ++ [""] →
                "" :: x = "" :: y ∨ "" :: x = ("" :: y) ++ [""]) as Hcons
        by (intros x y [->| ->]; [by left|by right]).
      destruct (Ascii.eqb c CR).
      * rewrite (append_cons a). cbv iota. destruct (Ascii.eqb a LF).
        -- apply Hcons, IH1.
        -- rewrite <- (append_cons a). apply Hcons, IH2.
      * apply Hcons, IH2.
    + destruct (IH2 a) as [-> | ->]; [by left|].
      destruct (splitlines (String a s)) as [|l ls]; [by left|by right].
Qed.

End Lines.

(** X3. Lines that hold no line boundary, the last of them not empty, come
    back unchanged from the text that joins them with line feeds, and [main]
    on that text is the parse of the lines followed by the report. *)
Theorem main_reads_the_lines (limit : nat) (lines : list string) :
  Forall (λ l, has_linebreak l = false) lines →
  list.last lines ≠ Some "" →
  splitlines (file_text lines) = lines
  ∧ exec (main limit (Text (file_text lines))) []
    = exec (config ← lift (parse_yaml lines); report limit config) [].
Proof.
  intros Hplain Hlast.
  pose proof (splitlines_file_text lines Hplain Hlast) as Hsplit.
  split; [done|]. unfold main. cbv zeta. by rewrite Hsplit.
Qed.

Lemma main_reads_the_lines_witness :
  splitlines (file_text ["a:"; ""; "  b: 1"]) = ["a:"; ""; "  b: 1"]
  ∧ exec (main 1000 (Text (file_text ["a:"; ""; "  b: 1"]))) []
    = exec (config ← lift (parse_yaml ["a:"; ""; "  b: 1"]); report 1000 config) [].
Proof.
  apply (main_reads_the_lines 1000 ["a:"; ""; "  b: 1"]).
  - repeat constructor.
  - vm_compute. discriminate.
Defined.

(** X4. A line feed at the end of the text makes no difference to [main],
    whatever the text; and no line that [main] hands to the parser holds a
    line boundary. *)
Theorem final_newline_ignored (limit : nat) (text : string) :
  exec (main limit (Text (text +:+ String LF ""))) []
  = exec (main limit (Text text)) []
  ∧ parse_yaml (splitlines (text +:+ String LF "")) = parse_yaml (splitlines text)
  ∧ Forall (λ l, has_linebreak l = false) (splitlines text).
Proof.
  assert (parse_lines (splitlines (text +:+ String LF ""))
          = parse_lines (splitlines text)) as Hsame.
  { destruct (splitlines_final_newline text) as [[-> | ->] _]; [done|].
    unfold parse_lines. rewrite for_each_app.
    destruct (for_each parse_line init (splitlines text)) as [st|e]; [|done].
    cbn [for_each mbind outcome_bind].
    by rewrite (parse_line_skipped st "" eq_refl). }
  assert (parse_yaml (splitlines (text +:+ String LF ""))
          = parse_yaml (splitlines text)) as Hparse
    by (unfold parse_yaml; by rewrite Hsame).
  split; [|split; [done|apply splitlines_no_linebreak]].
  unfold main. cbv zeta. by rewrite Hparse.
Qed.

(** ** Siblings and children *)

Section Nesting.

(** The stack after a retained line: what the pops left, under the new frame
    when the line opens a level. *)
Lemma parse_line_stack (st st' : state) (raw_line : string) :
  wf st → skipped raw_line = false → parse_line st raw_line = Ok st' →
  st_stack st'
  = (if pushes raw_line then [(line_indent raw_line, length (st_heap st))] else [])
    ++ pop_frames (line_indent raw_line) (st_stack st).
Proof.
  intros Hwf Hskip Hline.
  destruct (parse_line_retained st raw_line Hwf Hskip)
    as (depth & parent & rest & d & Hpop & Hd & Hline').
  rewrite Hline' in Hline. injection Hline as <-. cbn [st_stack].
  rewrite Hpop. by destruct (pushes raw_line).
Qed.

Lemma pop_frames_app (indent : Z) (extra base : list frame) :
  pop_frames indent base = base →
  pop_frames indent (extra ++ base) = pop_frames indent extra ++ base.
Proof.
  intros Hbase. induction extra as [|[depth l] extra IH]; [done|].
  cbn [app pop_frames]. by destruct (indent <=? depth).
Qed.

Lemma pop_frames_all (indent : Z) (extra base : list frame) :
  Forall (λ f : frame, indent <= f.1) extra →
  pop_frames indent (extra ++ base) = pop_frames indent base.
Proof.
  induction 1 as [|[depth l] extra Hd _ IH]; [done|].
  cbn [app pop_frames]. cbn in Hd.
  destruct (indent <=? depth) eqn:E; [done|lia].
Qed.

(** Lines deeper than [indent] work above the frames that are there: the
    stack keeps [base] at its bottom, under frames deeper than [indent]. *)
Lemma deeper_lines_keep_base (indent : Z) (base : list frame) (mid : list string) :
  Forall (λ f : frame, f.1 <= indent) base →
  Forall (λ l, skipped l = true ∨ indent < line_indent l) mid →
  ∀ st extra,
    wf st → st_stack st = extra ++ base →
    Forall (λ f : frame, indent < f.1) extra →
    ∃ st' extra',
      for_each parse_line st mid = Ok st' ∧ wf st'
      ∧ st_stack st' = extra' ++ base
      ∧ Forall (λ f : frame, indent < f.1) extra'.
Proof.
  intros Hbase. induction 1 as [|raw_line mid Hl _ IH];
    intros st extra Hwf Hstack Hextra.
  { by exists st, extra. }
  destruct (parse_line_wf st raw_line Hwf) as (st1 & Hline & Hwf1).
  cbn [for_each]. rewrite Hline. cbn [mbind outcome_bind].
  destruct (skipped raw_line) eqn:Hskip.
  { rewrite (parse_line_skipped _ _ Hskip) in Hline. injection Hline as <-.
    by apply (IH st extra). }
  destruct Hl as [?|Hdeep]; [done|].
  pose proof (parse_line_stack st st1 raw_line Hwf Hskip Hline) as Hstack1.
  rewrite Hstack, pop_frames_app in Hstack1.
  2:{ apply pop_frames_idle. eapply Forall_impl; [|exact Hbase].
      intros [? ?]; cbn. lia. }
  rewrite app_assoc in Hstack1.
  apply (IH st1 _ Hwf1 Hstack1).
  apply Forall_app. split.
  - destruct (pushes raw_line); repeat constructor. cbn. lia.
  - by apply pop_frames_Forall.
Qed.

End Nesting.

(** X5. Two retained lines of the same indentation write into the same
    mapping when every retained line between them is deeper than they are:
    siblings share their parent, whatever was nested under the first. *)
Theorem siblings_share_parent (pre mid : list string) (first second : string) :
  skipped first = false →
  skipped second = false →
  line_indent first = line_indent second →
  Forall (λ l, skipped l = true ∨ line_indent first < line_indent l) mid →
  ∃ st1 st2 parent,
    parse_lines pre = Ok st1
    ∧ parse_lines (pre ++ first :: mid) = Ok st2
    ∧ line_target st1 first = Some (parent, line_key first)
    ∧ line_target st2 second = Some (parent, line_key second).
Proof.
  intros Hskip1 Hskip2 Hindent Hmid.
  destruct (parse_lines_wf pre) as (st1 & Hst1 & Hwf1).
  destruct (parse_line_wf st1 first Hwf1) as (st1' & Hline1 & Hwf1').
  pose proof (parse_line_stack st1 st1' first Hwf1 Hskip1 Hline1) as Hstack.
  pose proof (pop_frames_kept (line_indent first) _ (wf_increasing _ Hwf1)) as Hkept.
  pose proof (pop_frames_root st1 first Hwf1) as Hroot.
  destruct (pop_frames (line_indent first) (st_stack st1))
    as [|[depth parent] rest] eqn:Hpop; [done|].
  assert (Forall (λ f : frame, f.1 <= line_indent first) (st_stack st1')) as Hbase.
  { rewrite Hstack. apply Forall_app. split.
    - destruct (pushes first); repeat constructor. cbn. lia.
    - eapply Forall_impl; [|exact Hkept]. intros [? ?]; cbn. lia. }
  destruct (deeper_lines_keep_base (line_indent first) (st_stack st1') mid
              Hbase Hmid st1' [] Hwf1' eq_refl ltac:(constructor))
    as (st2 & extra & Hst2 & Hwf2 & Hstack2 & Hextra).
  exists st1, st2, parent. split; [done|]. split.
  { unfold parse_lines in *. rewrite for_each_app, Hst1. cbn [mbind outcome_bind].
    cbn [for_each]. by rewrite Hline1. }
  split.
  { unfold line_target. by rewrite Hskip1, Hpop. }
  unfold line_target. rewrite Hskip2, Hstack2, <- Hindent.
  rewrite pop_frames_all
    by (eapply Forall_impl; [|exact Hextra]; intros [? ?]; cbn; lia).
  rewrite Hstack.
  pose proof (pop_frames_idle _ _ Hkept) as Hidle.
  destruct (pushes first); [|cbn [app]; by rewrite Hidle].
  rewrite pop_frames_all by (constructor; [cbn; lia|constructor]).
  by rewrite Hidle.
Qed.

Lemma siblings_share_parent_witness :
  ∃ st1 st2 parent,
    parse_lines ["a:"] = Ok st1
    ∧ parse_lines (["a:"] ++ "  b:" :: ["    c: 1"; ""; "      d: 2"]) = Ok st2
    ∧ line_target st1 "  b:" = Some (parent, "b")
    ∧ line_target st2 "  e: 3" = Some (parent, "e").
Proof.
  apply (siblings_share_parent ["a:"] ["    c: 1"; ""; "      d: 2"] "  b:" "  e: 3");
    [reflexivity..|].
  constructor; [right; reflexivity|].
  constructor; [left; reflexivity|].
  constructor; [right; reflexivity|constructor].
Defined.

Section OtherMappings.

(** A line leaves every mapping but its target as it is. *)
Lemma parse_line_other (st st' : state) (raw_line : string) (p : loc) (d : dict) :
  wf st → parse_line st raw_line = Ok st' →
  (∀ key, line_target st raw_line ≠ Some (p, key)) →
  st_heap st !! p = Some d → st_heap st' !! p = Some d.
Proof.
  intros Hwf Hline Hother Hp. destruct (skipped raw_line) eqn:Hskip.
  { rewrite (parse_line_skipped _ _ Hskip) in Hline. by injection Hline as <-. }
  destruct (parse_line_retained st raw_line Hwf Hskip)
    as (depth & parent & rest & e & Hpop & He & Hline').
  rewrite Hline' in Hline. injection Hline as <-. cbn [st_heap].
  assert (parent ≠ p) as Hne.
  { intros ->. apply (Hother (line_key raw_line)).
    unfold line_target. by rewrite Hskip, Hpop. }
  rewrite list_lookup_insert_ne by done.
  destruct (allocates raw_line); [|done].
  rewrite lookup_app_l; [done|]. by eapply lookup_lt_Some.
Qed.

(** The target of a line is a mapping that is in the store. *)
Lemma line_target_bound (st : state) (raw_line : string) (p : loc) (key : string) :
  wf st → line_target st raw_line = Some (p, key) →
  (p < length (st_heap st))%nat.
Proof.
  intros Hwf. unfold line_target. destruct (skipped raw_line); [done|].
  pose proof (pop_frames_Forall _ (line_indent raw_line) _ (wf_frames _ Hwf)) as Hfr.
  destruct (pop_frames (line_indent raw_line) (st_stack st))
    as [|[depth parent] rest]; [done|].
  intros [= <- _]. exact (Forall_inv Hfr).
Qed.

End OtherMappings.

(** X6. A retained line with a blank value stores a new, empty mapping
    under its key and pushes a frame for it.  A retained line that follows
    with a larger indentation is written into that new mapping, which stays
    stored under the first line's key; one that follows with the same or a
    smaller indentation is written into another mapping, and the new mapping
    is still empty after it. *)
Theorem blank_value_opens_level (pre : list string) (raw_line next_line : string) :
  skipped raw_line = false →
  line_value raw_line = "" →
  skipped next_line = false →
  ∃ st st' st'' parent node,
    parse_lines pre = Ok st
    ∧ line_target st raw_line = Some (parent, line_key raw_line)
    ∧ parse_lines (pre ++ [raw_line]) = Ok st'
    ∧ lookup_key (st_heap st') parent (line_key raw_line) = Some (VDict node)
    ∧ st_heap st' !! node = Some []
    ∧ node ≠ parent
    ∧ st_stack st'
      = (line_indent raw_line, node)
          :: pop_frames (line_indent raw_line) (st_stack st)
    ∧ parse_lines (pre ++ [raw_line; next_line]) = Ok st''
    ∧ (line_indent raw_line < line_indent next_line →
       line_target st' next_line = Some (node, line_key next_line)
       ∧ lookup_key (st_heap st'') node (line_key next_line)
         = Some (written st' next_line)
       ∧ lookup_key (st_heap st'') parent (line_key raw_line) = Some (VDict node))
    ∧ (line_indent next_line <= line_indent raw_line →
       ∃ other, line_target st' next_line = Some (other, line_key next_line)
                ∧ other ≠ node
                ∧ st_heap st'' !! node = Some []).
Proof.
  intros Hskip Hvalue Hskip'.
  destruct (parse_lines_wf pre) as (st & Hst & Hwf).
  destruct (parse_line_wf st raw_line Hwf) as (st' & Hline & Hwf').
  destruct (parse_line_writes st raw_line Hwf Hskip)
    as (st1 & parent & Htarget & Hline1 & Hget).
  rewrite Hline in Hline1. injection Hline1 as <-.
  pose proof (parse_line_stack st st' raw_line Hwf Hskip Hline) as Hstack.
  unfold pushes in Hstack. rewrite Hvalue in Hstack. cbn [String.eqb app] in Hstack.
  unfold written in Hget. rewrite Hvalue in Hget. cbn [String.eqb] in Hget.
  pose proof (line_target_bound st raw_line _ _ Hwf Htarget) as Hparent.
  set (node := length (st_heap st)) in *.
  assert (st_heap st' !! node = Some []) as Hnode.
  { destruct (parse_line_retained st raw_line Hwf Hskip)
      as (depth & parent' & rest & d & Hpop & Hd & Hline').
    rewrite Hline' in Hline. injection Hline as <-. cbn [st_heap].
    assert (parent' = parent) as ->.
    { unfold line_target in Htarget. rewrite Hskip, Hpop in Htarget.
      by injection Htarget as <-. }
    unfold allocates. rewrite Hvalue. cbn [String.eqb orb].
    rewrite list_lookup_insert_ne by (subst node; lia).
    rewrite lookup_app_r by (subst node; lia).
    subst node. by rewrite Nat.sub_diag. }
  destruct (parse_line_writes st' next_line Hwf' Hskip')
    as (st'' & target & Htarget' & Hnext & Hget').
  exists st, st', st'', parent, node.
  split; [done|]. split; [done|].
  split; [by rewrite (parse_lines_snoc _ _ _ Hst)|].
  split; [done|]. split; [done|]. split; [subst node; lia|]. split; [done|].
  split.
  { replace (pre ++ [raw_line; next_line]) with ((pre ++ [raw_line]) ++ [next_line])
      by (by rewrite <- app_assoc).
    rewrite (parse_lines_snoc _ _ st'); [done|].
    by rewrite (parse_lines_snoc _ _ _ Hst). }
  pose proof (pop_frames_kept (line_indent raw_line) _ (wf_increasing _ Hwf))
    as Hkept.
  pose proof (pop_frames_Forall _ (line_indent raw_line) _ (wf_frames _ Hwf))
    as Hlocs.
  split.
  - intros Hdeeper.
    assert (line_target st' next_line = Some (node, line_key next_line)) as Hin.
    { unfold line_target. rewrite Hskip', Hstack.
      rewrite pop_frames_idle; [done|].
      constructor; [cbn; lia|].
      eapply Forall_impl; [|exact Hkept]. intros [? ?]; cbn. lia. }
    rewrite Hin in Htarget'. injection Htarget' as <-.
    split; [done|]. split; [done|].
    rewrite <- Hget. apply (parse_line_frame st' st'' next_line); [done..| |].
    + rewrite Hin. intros [= ? _]. subst node. lia.
    + pose proof (parse_line_length st st' raw_line Hwf Hline). lia.
  - intros Hshallow. exists target. split; [done|].
    assert (target ≠ node) as Hne.
    { unfold line_target in Htarget'. rewrite Hskip', Hstack in Htarget'.
      change ((line_indent raw_line, node)
                :: pop_frames (line_indent raw_line) (st_stack st))
        with ([(line_indent raw_line, node)]
                ++ pop_frames (line_indent raw_line) (st_stack st)) in Htarget'.
      rewrite pop_frames_all in Htarget'
        by (constructor; [cbn; lia|constructor]).
      pose proof (pop_frames_Forall _ (line_indent next_line) _ Hlocs) as Hlocs'.
      destruct (pop_frames (line_indent next_line)
                  (pop_frames (line_indent raw_line) (st_stack st)))
        as [|[depth l] rest]; [done|].
      injection Htarget' as <-. pose proof (Forall_inv Hlocs') as Hl.
      cbn in Hl. subst node. lia. }
    split; [done|].
    apply (parse_line_other st' st'' next_line); [done..| |done].
    intros key. rewrite Htarget'. intros [= ? _]. done.
Qed.

Lemma blank_value_opens_level_witness :
  ∃ st st' st'' parent node,
    parse_lines ["top: 1"] = Ok st
    ∧ line_target st "data:" = Some (parent, "data")
    ∧ parse_lines (["top: 1"] ++ ["data:"]) = Ok st'
    ∧ lookup_key (st_heap st') parent "data" = Some (VDict node)
    ∧ st_heap st' !! node = Some []
    ∧ node ≠ parent
    ∧ st_stack st' = (0, node) :: pop_frames 0 (st_stack st)
    ∧ parse_lines (["top: 1"] ++ ["data:"; "  x: 1"]) = Ok st''
    ∧ (line_indent "data:" < line_indent "  x: 1" →
       line_target st' "  x: 1" = Some (node, "x")
       ∧ lookup_key (st_heap st'') node "x" = Some (written st' "  x: 1")
       ∧ lookup_key (st_heap st'') parent "data" = Some (VDict node))
    ∧ (line_indent "  x: 1" <= line_indent "data:" →
       ∃ other, line_target st' "  x: 1" = Some (other, "x")
                ∧ other ≠ node
                ∧ st_heap st'' !! node = Some []).
Proof.
  apply (blank_value_opens_level ["top: 1"] "data:" "  x: 1"); reflexivity.
Defined.

(** ** Keys and their order *)

Section Keys.

Lemma dict_set_prefix (d : dict) (key : string) (v : value) :
  d.*1 `prefix_of` (dict_set d key v).*1.
Proof.
  rewrite dict_set_order. destruct (bool_decide (key ∈ d.*1)); [done|].
  by apply prefix_app_r.
Qed.

Lemma parse_line_keys (st st' : state) (raw_line : string) (p : loc) (d : dict) :
  wf st → parse_line st raw_line = Ok st' → st_heap st !! p = Some d →
  ∃ d', st_heap st' !! p = Some d' ∧ d.*1 `prefix_of` d'.*1.
Proof.
  intros Hwf Hline Hp. destruct (skipped raw_line) eqn:Hskip.
  { rewrite (parse_line_skipped _ _ Hskip) in Hline. injection Hline as <-.
    by exists d. }
  destruct (parse_line_retained st raw_line Hwf Hskip)
    as (depth & parent & rest & e & Hpop & He & Hline').
  rewrite Hline' in Hline. injection Hline as <-. cbn [st_heap].
  assert ((if allocates raw_line then st_heap st ++ [[]] else st_heap st) !! p
          = Some d) as Hp'.
  { destruct (allocates raw_line); [|done].
    rewrite lookup_app_l; [done|]. by eapply lookup_lt_Some. }
  destruct (decide (parent = p)) as [->|Hne].
  - rewrite list_lookup_insert_eq by (by eapply lookup_lt_Some).
    eexists. split; [done|].
    assert (e = d) as -> by congruence. apply dict_set_prefix.
  - rewrite list_lookup_insert_ne by done. by exists d.
Qed.

Lemma for_each_keys (lines : list string) (st st' : state) (p : loc) (d : dict) :
  wf st → for_each parse_line st lines = Ok st' → st_heap st !! p = Some d →
  ∃ d', st_heap st' !! p = Some d' ∧ d.*1 `prefix_of` d'.*1.
Proof.
  revert st d. induction lines as [|raw_line lines IH]; intros st d Hwf Hrun Hp.
  - injection Hrun as <-. by exists d.
  - destruct (parse_line_wf st raw_line Hwf) as (st1 & Hline & Hwf1).
    cbn [for_each] in Hrun. rewrite Hline in Hrun. cbn in Hrun.
    destruct (parse_line_keys st st1 raw_line p d Hwf Hline Hp) as (d1 & Hp1 & Hpre1).
    destruct (IH st1 d1 Hwf1 Hrun Hp1) as (d' & Hp' & Hpre').
    exists d'. split; [done|]. by etrans.
Qed.

End Keys.

(** X7. Keys are never removed and never reordered.  Whatever lines follow,
    every mapping made so far is still in the store, and the keys it had
    are the first keys it has afterwards, in the same order. *)
Theorem keys_only_grow (pre post : list string) :
  ∃ st st',
    parse_lines pre = Ok st
    ∧ parse_lines (pre ++ post) = Ok st'
    ∧ ∀ p d, st_heap st !! p = Some d →
             ∃ d', st_heap st' !! p = Some d' ∧ d.*1 `prefix_of` d'.*1.
Proof.
  destruct (parse_lines_wf pre) as (st & Hst & Hwf).
  destruct (for_each_wf post st Hwf) as (st' & Hst' & _).
  exists st, st'. split; [done|]. split.
  - unfold parse_lines in *. by rewrite for_each_app, Hst.
  - intros p d Hp. by apply (for_each_keys post st st').
Qed.

(** X8. A retained line changes one entry of one mapping.  Every other
    mapping of the store is as it was; in the mapping written to, every
    other key has the value it had, and the keys are in the order they were
    in, with the line's key added at the end when it is new. *)
Theorem line_changes_one_entry (pre : list string) (raw_line : string) :
  skipped raw_line = false →
  ∃ st st' parent d d',
    parse_lines pre = Ok st
    ∧ parse_lines (pre ++ [raw_line]) = Ok st'
    ∧ line_target st raw_line = Some (parent, line_key raw_line)
    ∧ (∀ p e, p ≠ parent → st_heap st !! p = Some e → st_heap st' !! p = Some e)
    ∧ st_heap st !! parent = Some d
    ∧ st_heap st' !! parent = Some d'
    ∧ dict_get d' (line_key raw_line) = Some (written st raw_line)
    ∧ (∀ key, key ≠ line_key raw_line → dict_get d' key = dict_get d key)
    ∧ d'.*1 = (if bool_decide (line_key raw_line ∈ d.*1) then d.*1
               else d.*1 ++ [line_key raw_line]).
Proof.
  intros Hskip.
  destruct (parse_lines_wf pre) as (st & Hst & Hwf).
  destruct (parse_line_retained st raw_line Hwf Hskip)
    as (depth & parent & rest & d & Hpop & Hd & Hline).
  assert (line_target st raw_line = Some (parent, line_key raw_line)) as Htarget
    by (unfold line_target; by rewrite Hskip, Hpop).
  eexists st, _, parent, d, _.
  split; [done|]. split; [by rewrite (parse_lines_snoc _ _ _ Hst)|].
  split; [done|]. split.
  { intros p e Hne Hp. apply (parse_line_other st _ raw_line p e Hwf Hline); [|done].
    intros key. rewrite Htarget. by intros [= ? _]. }
  split; [done|]. cbn [st_heap]. split.
  { apply list_lookup_insert_eq. apply lookup_lt_Some in Hd.
    destruct (allocates raw_line); [|done]. rewrite length_app. lia. }
  split; [apply dict_get_set_eq|]. split.
  - intros key Hne. by apply dict_get_set_ne.
  - apply dict_set_order.
Qed.

Lemma line_changes_one_entry_witness :
  ∃ st st' parent d d',
    parse_lines ["a:"; "  x: 1"; "  y: 2"] = Ok st
    ∧ parse_lines (["a:"; "  x: 1"; "  y: 2"] ++ ["  x: 3"]) = Ok st'
    ∧ line_target st "  x: 3" = Some (parent, "x")
    ∧ (∀ p e, p ≠ parent → st_heap st !! p = Some e → st_heap st' !! p = Some e)
    ∧ st_heap st !! parent = Some d
    ∧ st_heap st' !! parent = Some d'
    ∧ dict_get d' "x" = Some (written st "  x: 3")
    ∧ (∀ key, key ≠ "x" → dict_get d' key = dict_get d key)
    ∧ d'.*1 = (if bool_decide ("x" ∈ d.*1) then d.*1 else d.*1 ++ ["x"]).
Proof.
  apply (line_changes_one_entry ["a:"; "  x: 1"; "  y: 2"] "  x: 3").
  reflexivity.
Defined.

(** ** The stack as a path *)

Section Path.

Lemma dict_get_elem (d : dict) (key : string) (v : value) :
  dict_get d key = Some v → (key, v) ∈ d.
Proof.
  induction d as [|[k w] d IH]; [done|]. cbn.
  destruct (String.eqb k key) eqn:E.
  - apply String.eqb_eq in E as ->. intros [= ->]. by left.
  - intros H. right. by apply IH.
Qed.

(** A stored reference points forward. *)
Lemma link_forward (h : heap) (p l : loc) (key : string) :
  refs_ok h → lookup_key h p key = Some (VDict l) → (p < l < length h)%nat.
Proof.
  intros Hrefs. unfold lookup_key.
  destruct (h !! p) as [d|] eqn:Hp; [|done]. cbn. intros Hget.
  apply dict_get_elem in Hget.
  pose proof (Hrefs p d Hp) as Hall. rewrite Forall_forall in Hall.
  apply list_elem_of_In in Hget. exact (Hall _ Hget).
Qed.

Lemma chained_tail (h : heap) (upper : frame) (rest : list frame) :
  chained h (upper :: rest) → chained h rest.
Proof. destruct rest as [|lower rest]; [done|]. by intros [_ ?]. Qed.

Lemma chained_locs (h : heap) (upper : frame) (rest : list frame) :
  refs_ok h → chained h (upper :: rest) →
  Forall (λ f : frame, (f.2 < upper.2)%nat) rest.
Proof.
  intros Hrefs. revert upper.
  induction rest as [|lower rest IH]; intros upper Hch; [constructor|].
  destruct Hch as [[key Hlink] Hrest].
  pose proof (link_forward h _ _ key Hrefs Hlink) as Hlt.
  constructor; [lia|].
  eapply Forall_impl; [|exact (IH lower Hrest)]. intros [? ?]; cbn. lia.
Qed.

Lemma chained_pop (h : heap) (indent : Z) (stack : list frame) :
  chained h stack → chained h (pop_frames indent stack).
Proof.
  induction stack as [|[depth l] stack IH]; [done|].
  intros Hch. cbn [pop_frames]. destruct (indent <=? depth); [|done].
  apply IH. by eapply chained_tail.
Qed.

(** Links only depend on what the frames below the top hold. *)
Lemma chained_same (h h' : heap) (upper : frame) (rest : list frame) :
  (∀ f key, f ∈ rest → lookup_key h' f.2 key = lookup_key h f.2 key) →
  chained h (upper :: rest) → chained h' (upper :: rest).
Proof.
  revert upper. induction rest as [|lower rest IH]; intros upper Hsame Hch; [done|].
  destruct Hch as [[key Hlink] Hrest]. split.
  - exists key. rewrite Hsame; [done|]. by left.
  - apply IH; [|done]. intros f k Hf. apply Hsame. by right.
Qed.

Lemma parse_line_chained (st st' : state) (raw_line : string) :
  wf st → chained (st_heap st) (st_stack st) →
  parse_line st raw_line = Ok st' →
  chained (st_heap st') (st_stack st').
Proof.
  intros Hwf Hch Hline. destruct (skipped raw_line) eqn:Hskip.
  { rewrite (parse_line_skipped _ _ Hskip) in Hline. by injection Hline as <-. }
  pose proof (parse_line_stack st st' raw_line Hwf Hskip Hline) as Hstack.
  destruct (parse_line_writes st raw_line Hwf Hskip)
    as (st1 & parent & Htarget & Hline1 & Hget).
  rewrite Hline in Hline1. injection Hline1 as <-.
  pose proof (chained_pop _ (line_indent raw_line) _ Hch) as Hkept.
  pose proof (pop_frames_Forall _ (line_indent raw_line) _ (wf_frames _ Hwf))
    as Hlocs.
  unfold line_target in Htarget. rewrite Hskip in Htarget.
  destruct (pop_frames (line_indent raw_line) (st_stack st))
    as [|[depth parent'] rest] eqn:Hpop; [done|].
  injection Htarget as ->.
  assert (chained (st_heap st') ((depth, parent) :: rest)) as Hkept'.
  { apply (chained_same (st_heap st)); [|done].
    pose proof (chained_locs _ _ _ (wf_refs _ Hwf) Hkept) as Hbelow.
    intros f key Hf.
    rewrite Forall_forall in Hbelow. rewrite Forall_forall in Hlocs.
    apply list_elem_of_In in Hf.
    pose proof (Hbelow f Hf) as Hlt. cbn in Hlt.
    apply (parse_line_frame st st' raw_line); [done..| |].
    - unfold line_target. rewrite Hskip, Hpop. intros [= ? _]. lia.
    - apply (Hlocs f). by right. }
  rewrite Hstack. unfold pushes, written in *.
  destruct (String.eqb (line_value raw_line) ""); [|done].
  cbn [app chained]. split; [|done]. by exists (line_key raw_line).
Qed.

Lemma for_each_chained (lines : list string) (st st' : state) :
  wf st → chained (st_heap st) (st_stack st) →
  for_each parse_line st lines = Ok st' →
  chained (st_heap st') (st_stack st').
Proof.
  revert st. induction lines as [|raw_line lines IH]; intros st Hwf Hch Hrun.
  - by injection Hrun as <-.
  - destruct (parse_line_wf st raw_line Hwf) as (st1 & Hline & Hwf1).
    cbn [for_each] in Hrun. rewrite Hline in Hrun. cbn in Hrun.
    apply (IH st1); [done| |done]. by apply (parse_line_chained st _ raw_line).
Qed.

End Path.

(** X9. After any lines the frame stack is a path into the tree that starts
    at the root mapping: the mapping of every frame but the bottom one is
    stored, under some key, in the mapping of the frame just below it, and
    the mappings get newer from the bottom of the stack to its top. *)
Theorem stack_is_a_path (lines : list string) :
  ∃ st, parse_lines lines = Ok st
    ∧ chained (st_heap st) (st_stack st)
    ∧ list.last (st_stack st) = Some (-1, root)
    ∧ StronglySorted (λ upper lower : frame, (lower.2 < upper.2)%nat) (st_stack st).
Proof.
  destruct (parse_lines_wf lines) as (st & Hst & Hwf).
  assert (chained (st_heap st) (st_stack st)) as Hch.
  { apply (for_each_chained lines init st wf_init); [|done]. by cbn. }
  exists st. split; [done|]. split; [done|]. split; [apply Hwf|].
  pose proof (wf_refs _ Hwf) as Hrefs.
  induction (st_stack st) as [|upper rest IH]; [constructor|].
  constructor.
  - apply IH. by eapply chained_tail.
  - by apply (chained_locs (st_heap st)).
Qed.

(** ** What the report reads and prints *)

Section ReportShape.

Lemma line_if_sublist (b : bool) (line : string) :
  line_if b line `sublist_of` [line].
Proof. destruct b; cbn; [done|]. by apply sublist_nil_l. Qed.

Lemma at_path_cons (config : list (string * tree)) (key : string)
    (path : list string) :
  at_path config (key :: path) = foldl get_field (dict_get config key) path.
Proof. reflexivity. Qed.

End ReportShape.

(** X10. The report reads four keys of the root mapping and nothing else:
    two root mappings that agree under [ingress], [postgres], [secrets] and
    [observability] give the same output, whatever other keys they hold and
    in whatever order. *)
Theorem report_reads_four_keys (limit : nat) (config config' : list (string * tree))
    (out : list string) :
  Forall (λ key, dict_get config key = dict_get config' key)
    ["ingress"; "postgres"; "secrets"; "observability"] →
  exec (report limit config) out = exec (report limit config') out.
Proof.
  intros Hall.
  apply Forall_cons_iff in Hall as [Hi Hall].
  apply Forall_cons_iff in Hall as [Hp Hall].
  apply Forall_cons_iff in Hall as [Hs Hall].
  apply Forall_cons_iff in Hall as [Ho _].
  rewrite !report_ok. unfold report_rows.
  by rewrite !at_path_cons, Hi, Hp, Hs, Ho.
Qed.

Lemma report_reads_four_keys_witness :
  exec (report 1000 [("extra", TStr "x"); ("postgres", TStr "p");
                     ("ingress", TDict [("host", TStr "h")])]) []
  = exec (report 1000 [("ingress", TDict [("host", TStr "h")]);
                       ("postgres", TStr "p")]) [].
Proof.
  apply report_reads_four_keys. repeat constructor.
Defined.

(** X11. The report prints at most five lines, each from its own template,
    none twice, in the order of the table: its output is the table of the
    five lines, for some texts of the fields, with some lines left out.  It
    ends well or, when a mapping leaf nests deeper than the interpreter
    allows, with [RecursionError]; it raises nothing else. *)
Theorem report_within_table (limit : nat) (config : list (string * tree)) :
  ∃ out status b1 b2 b3 b4 b5,
    exec (report limit config) [] = (out, status)
    ∧ out `sublist_of` report_table b1 b2 b3 b4 b5
    ∧ (length out <= 5)%nat
    ∧ (status = Ok tt ∨ status = Raise RecursionError).
Proof.
  assert (∀ (c : bool) (o : outcome string) (g : string → string),
            ∃ b, row_line (g "") (c, text ← o; Ok (g text)) = g b) as H1.
  { intros c [text|e] g; [by exists text|by exists ""]. }
  assert (∀ (c : bool) (o1 o2 : outcome string) (pre : string),
            ∃ b, row_line (pre +:+ "")
                   (c, a ← o1; b ← o2; Ok (pre +:+ a +:+ "/" +:+ b)) = pre +:+ b)
    as H2.
  { intros c [a|e1] o2 pre; [|by exists ""].
    destruct o2 as [b|e2]; [by eexists|by exists ""]. }
  destruct (emit_sublist (report_rows limit config)
              ["Ingress URL: http://" +:+ "" +:+ ":8080";
               "Postgres credentials: " +:+ ""; "SMTP URL: " +:+ "";
               "JWT secret: " +:+ ""; "Grafana credentials: " +:+ ""] [] eq_refl)
    as (l & Hl & Hsub).
  unfold report_rows in Hsub. cbv zeta in Hsub. cbn [zip_with] in Hsub.
  destruct (H1 (truthy (at_path config ["ingress"; "host"]))
              (py_str limit (at_path config ["ingress"; "host"]))
              (λ text, "Ingress URL: http://" +:+ text +:+ ":8080")) as [b1 Hb1].
  destruct (H2 (truthy (at_path config ["postgres"; "username"])
                && truthy (at_path config ["postgres"; "password"]))
              (py_str limit (at_path config ["postgres"; "username"]))
              (py_str limit (at_path config ["postgres"; "password"]))
              "Postgres credentials: ") as [b2 Hb2].
  destruct (H1 (truthy (at_path config ["secrets"; "data"; "SMTP_URL"]))
              (py_str limit (at_path config ["secrets"; "data"; "SMTP_URL"]))
              (λ text, "SMTP URL: " +:+ text)) as [b3 Hb3].
  destruct (H1 (truthy (at_path config ["secrets"; "data"; "JWT_SECRET"]))
              (py_str limit (at_path config ["secrets"; "data"; "JWT_SECRET"]))
              (λ text, "JWT secret: " +:+ text)) as [b4 Hb4].
  destruct (H2 (truthy (at_path config ["observability"; "grafana"; "adminUser"])
                && truthy (at_path config
                             ["observability"; "grafana"; "adminPassword"]))
              (py_str limit (at_path config ["observability"; "grafana"; "adminUser"]))
              (py_str limit
                 (at_path config ["observability"; "grafana"; "adminPassword"]))
              "Grafana credentials: ") as [b5 Hb5].
  cbv beta in Hb1, Hb3, Hb4.
  rewrite Hb1, Hb2, Hb3, Hb4, Hb5 in Hsub.
  exists (emit (report_rows limit config) []).1,
    (emit (report_rows limit config) []).2, b1, b2, b3, b4, b5.
  split; [rewrite report_ok; by destruct (emit _ _)|].
  rewrite Hl. cbn [app]. split; [exact Hsub|]. split.
  - apply sublist_length in Hsub. exact Hsub.
  - destruct (emit_status (report_rows limit config) [])
      as [Hok|(c & e & Hin & Hraise)]; [by left|].
    right. rewrite Hraise. f_equal. by eapply report_rows_raise.
Qed.

(** ** White space at the end of a line *)

Section TrailingSpace.

Lemma length_lstrip_chars_append (s ws : string) :
  strip s ≠ "" →
  String.length (lstrip_chars " " (s +:+ ws))
  = (String.length (lstrip_chars " " s) + String.length ws)%nat.
Proof.
  induction s as [|c s IH]; [done|]. intros Hne.
  rewrite append_cons. cbn [lstrip_chars].
  destruct (contains c " ") eqn:Hc.
  - apply IH. cbn [contains] in Hc. rewrite orb_false_r in Hc.
    apply Ascii.eqb_eq in Hc as <-. exact Hne.
  - rewrite <- append_cons. apply length_append.
Qed.

Lemma line_indent_append (raw_line ws : string) :
  skipped raw_line = false →
  line_indent (raw_line +:+ ws) = line_indent raw_line.
Proof.
  intros Hskip. unfold line_indent, len.
  rewrite length_append, length_lstrip_chars_append; [lia|].
  intros Hempty. unfold skipped, line_stripped in Hskip. by rewrite Hempty in Hskip.
Qed.

End TrailingSpace.

(** X12. White space at the end of a line is ignored: a line followed by
    spaces, tabs or other white space is read, in any state, as the line
    without them, and so is a whole file with white space added at the end
    of its lines. *)
Theorem trailing_space_ignored (ws : string) :
  all_space ws = true →
  (∀ st raw_line, parse_line st (raw_line +:+ ws) = parse_line st raw_line)
  ∧ ∀ lines, parse_yaml (map (λ l, l +:+ ws) lines) = parse_yaml lines.
Proof.
  intros Hws.
  assert (∀ st raw_line, parse_line st (raw_line +:+ ws) = parse_line st raw_line)
    as Hline.
  { intros st raw_line.
    assert (line_stripped (raw_line +:+ ws) = line_stripped raw_line) as Hstrip
      by (by apply strip_append_space).
    assert (skipped (raw_line +:+ ws) = skipped raw_line) as Hskip
      by (unfold skipped; by rewrite Hstrip).
    unfold parse_line. rewrite Hskip.
    destruct (skipped raw_line) eqn:E; [done|].
    rewrite (line_indent_append _ _ E).
    unfold line_key, line_value. by rewrite Hstrip. }
  split; [done|]. intros lines. unfold parse_yaml, parse_lines.
  f_equal. generalize init.
  induction lines as [|l lines IH]; intros st; [done|].
  cbn [map for_each]. rewrite Hline.
  destruct (parse_line st l) as [st'|e]; cbn; [apply IH|done].
Qed.

Lemma trailing_space_ignored_witness :
  parse_yaml (map (λ l, l +:+ "  ") ["a:"; "  b: 1"]) = parse_yaml ["a:"; "  b: 1"].
Proof.
  apply (trailing_space_ignored "  "). reflexivity.
Defined.

(** ** The lists of a parsed tree *)

Section Lists.

Lemma reify_lists_empty (fuel : nat) (h : heap) (v : value) (t : tree) :
  reify fuel h v = Some t → lists_empty t = true.
Proof.
  revert v t. induction fuel as [|fuel IH]; intros v t.
  - destruct v; cbn; [by intros [= <-]..|done].
  - destruct v as [s| |l]; cbn [reify]; [by intros [= <-]..|].
    destruct (h !! l) as [d|]; [|done]. cbn.
    destruct (mapM _ d) as [entries|] eqn:Hm; [|done]. cbn. intros [= <-].
    apply mapM_Some in Hm. cbn [lists_empty].
    induction Hm as [|[k w] [k' t'] d entries Hkv _ IHm]; [reflexivity|].
    cbn [forallb snd]. rewrite IHm, andb_true_r.
    cbn [fst snd] in Hkv.
    destruct (reify fuel h w) as [t''|] eqn:Hw; [|done].
    cbn in Hkv. injection Hkv as _ <-. by apply (IH w).
Qed.

Lemma get_field_lists_empty (x : pyval) (key : string) (t : tree) :
  (∀ u, x = Some u → lists_empty u = true) →
  get_field x key = Some t → lists_empty t = true.
Proof.
  destruct x as [[s|d|l]|]; [done| |done..].
  intros Hx Hget. specialize (Hx _ eq_refl). cbn in Hx, Hget.
  induction d as [|[k w] d IH]; [done|].
  cbn in Hx, Hget. apply andb_prop in Hx as [Hw Hd].
  destruct (String.eqb k key); [by injection Hget as <-|by apply IH].
Qed.

Lemma at_path_lists_empty (config : list (string * tree)) (path : list string)
    (t : tree) :
  lists_empty (TDict config) = true →
  at_path config path = Some t → lists_empty t = true.
Proof.
  intros Hconfig. unfold at_path. revert t.
  induction path as [|key path IH] using rev_ind; intros t.
  - by intros [= <-].
  - rewrite foldl_snoc. apply get_field_lists_empty.
    intros u Hu. by apply IH.
Qed.

End Lists.

(** X13. The parser never makes a list with items: in the tree of any lines
    every list is empty.  So the value at any path of a parsed tree that
    counts as true, and makes the report print a line, is a string that is
    not empty or a mapping with entries. *)
Theorem parsed_lists_are_empty (lines : list string) :
  ∃ config,
    parse_yaml lines = Ok config
    ∧ lists_empty (TDict config) = true
    ∧ ∀ path,
        truthy (at_path config path) = true →
        (∃ s, at_path config path = Some (TStr s) ∧ s ≠ "")
        ∨ (∃ kv d, at_path config path = Some (TDict (kv :: d))).
Proof.
  destruct (parse_lines_wf lines) as (st & Hst & Hwf).
  destruct (read_root_ok st Hwf) as [config Hconfig].
  assert (lists_empty (TDict config) = true) as Hempty.
  { unfold read_root in Hconfig.
    destruct (reify _ _ _) as [[s|d|l]|] eqn:Hr; try done.
    injection Hconfig as ->. by apply reify_lists_empty in Hr. }
  exists config. split; [unfold parse_yaml; by rewrite Hst|]. split; [done|].
  intros path Htrue.
  destruct (at_path config path) as [[s|d|l]|] eqn:Hpath; [| | |done].
  - left. exists s. split; [done|]. intros ->. done.
  - right. destruct d as [|kv d]; [done|]. by exists kv, d.
  - apply (at_path_lists_empty config path _ Hempty) in Hpath.
    by destruct l.
Qed.

(** ** Indentation is relative *)

Section Shift.

Variable k : nat.

Lemma lstrip_indented (raw_line : string) :
  lstrip (indented k raw_line) = lstrip raw_line.
Proof. unfold indented. induction k as [|k' IH]; [done|]. exact IH. Qed.

Lemma line_stripped_indented (raw_line : string) :
  line_stripped (indented k raw_line) = line_stripped raw_line.
Proof. unfold line_stripped, strip. by rewrite lstrip_indented. Qed.

Lemma line_indent_indented (raw_line : string) :
  line_indent (indented k raw_line) = line_indent raw_line + Z.of_nat k.
Proof.
  unfold line_indent, len, indented. induction k as [|k' IH].
  - cbn [spaces]. rewrite append_nil. lia.
  - cbn [spaces]. rewrite append_cons. cbn [lstrip_chars contains String.length].
    rewrite Ascii.eqb_refl. cbn [orb]. lia.
Qed.

Lemma shift_root (depth : Z) (l : loc) :
  depth < 0 → shift k (depth, l) = (depth, l).
Proof.
  intros H. unfold shift. cbn [fst snd].
  destruct (Z.ltb_spec depth 0); [done|lia].
Qed.

Lemma shift_frame (depth : Z) (l : loc) :
  0 <= depth → shift k (depth, l) = (depth + Z.of_nat k, l).
Proof.
  intros H. unfold shift. cbn [fst snd].
  destruct (Z.ltb_spec depth 0); [lia|done].
Qed.

Lemma pop_frames_shift (indent : Z) (stack : list frame) :
  0 <= indent →
  pop_frames (indent + Z.of_nat k) (map (shift k) stack)
  = map (shift k) (pop_frames indent stack).
Proof.
  intros Hind. induction stack as [|[depth l] stack IH]; [done|].
  cbn [map pop_frames].
  destruct (Z.leb_spec indent depth) as [Hle|Hgt].
  - rewrite shift_frame by lia. cbn [pop_frames].
    destruct (Z.leb_spec (indent + Z.of_nat k) (depth + Z.of_nat k)); [done|lia].
  - cbn [map]. destruct (Z.ltb_spec depth 0) as [Hneg|Hpos].
    + rewrite shift_root by done. cbn [pop_frames].
      destruct (Z.leb_spec (indent + Z.of_nat k) depth); [lia|done].
    + rewrite shift_frame by done. cbn [pop_frames].
      destruct (Z.leb_spec (indent + Z.of_nat k) (depth + Z.of_nat k)); [lia|done].
Qed.

(** One line read in a state and the moved line read in the moved state
    end alike. *)
Lemma parse_line_shift (st st2 : state) (raw_line : string) :
  shifted k st st2 →
  (∃ a b, parse_line st raw_line = Ok a
          ∧ parse_line st2 (indented k raw_line) = Ok b ∧ shifted k a b)
  ∨ (∃ e, parse_line st raw_line = Raise e
          ∧ parse_line st2 (indented k raw_line) = Raise e).
Proof.
  intros [Hheap Hstack].
  pose proof (line_indent_nonneg raw_line) as Hind.
  unfold parse_line, skipped, line_key, line_value.
  rewrite line_stripped_indented, line_indent_indented, Hstack, Hheap.
  rewrite (pop_frames_shift _ _ Hind).
  destruct (String.eqb (line_stripped raw_line) ""
            || startswith "#" (line_stripped raw_line)).
  { left. by exists st, st2. }
  destruct (pop_frames (line_indent raw_line) (st_stack st))
    as [|[depth parent] rest].
  { right. by exists IndexError. }
  cbn [map shift fst snd].
  pose proof (shift_frame (line_indent raw_line) (length (st_heap st)) Hind)
    as Hpush.
  destruct (partition ":" (line_stripped raw_line)) as [[key found] value].
  destruct (String.eqb (strip value) "").
  { cbn [alloc].
    destruct (store_set (st_heap st ++ [[]]) parent key _) as [h'|e]; cbn.
    - left. eexists _, _. split; [done|]. split; [done|].
      split; [done|]. cbn [st_stack map]. by rewrite Hpush.
    - right. by exists e. }
  destruct (String.eqb (strip value) "[]" || String.eqb (strip value) "{}").
  - destruct (String.eqb (strip value) "[]").
    + destruct (store_set (st_heap st) parent key _) as [h'|e]; cbn.
      * left. by eexists _, _.
      * right. by exists e.
    + cbn [alloc].
      destruct (store_set (st_heap st ++ [[]]) parent key _) as [h'|e]; cbn.
      * left. by eexists _, _.
      * right. by exists e.
  - destruct (store_set (st_heap st) parent key _) as [h'|e]; cbn.
    + left. by eexists _, _.
    + right. by exists e.
Qed.

Lemma for_each_shift (lines : list string) (st st2 : state) :
  shifted k st st2 →
  (∃ a b, for_each parse_line st lines = Ok a
          ∧ for_each parse_line st2 (map (indented k) lines) = Ok b
          ∧ shifted k a b)
  ∨ (∃ e, for_each parse_line st lines = Raise e
          ∧ for_each parse_line st2 (map (indented k) lines) = Raise e).
Proof.
  revert st st2. induction lines as [|raw_line lines IH]; intros st st2 Hrel.
  { left. by exists st, st2. }
  cbn [map for_each].
  destruct (parse_line_shift st st2 raw_line Hrel)
    as [(a & b & -> & -> & Hab)|(e & -> & ->)]; cbn.
  - by apply IH.
  - right. by exists e.
Qed.

End Shift.

(** X14. Only relative indentation counts: moving every line of the input
    the same number of spaces to the right gives the same tree. *)
Theorem indentation_is_relative (k : nat) (lines : list string) :
  parse_yaml (map (indented k) lines) = parse_yaml lines.
Proof.
  assert (shifted k init init) as Hinit by done.
  unfold parse_yaml, parse_lines.
  destruct (for_each_shift k lines init init Hinit)
    as [(a & b & -> & -> & [Hheap _])|(e & -> & ->)]; cbn; [|done].
  by rewrite Hheap.
Qed.
